(** * The errors cache of alm (src/server/utils/errorsCache.ts)

    A shallow embedding of [ErrorsCache]: the per-file store of code
    errors, the delta computed by [sendErrors], its dual [applyDelta],
    the batch update [setErrorsByFilePaths] and the truncated view
    [getErrorsLimited].

    JavaScript values are modelled as follows.
    - A plain object used as a dictionary is an association list in
      insertion order ([JsObject]); [Object.keys] and [for .. in] walk it
      in that order.  File paths and error keys are ordinary property
      names: they are neither array indices (which JavaScript would
      enumerate first) nor names inherited from [Object.prototype].
    - [number] fields of editor positions are integers, [Z].
    - An array is a [list]; arrays are never updated in place after they
      have been stored ([concat], [filter] and [slice] build new arrays,
      [push] is only used on arrays created by the same loop). *)

From Stdlib Require Import List String Ascii ZArith Lia Bool.
From Stdlib Require Import DecimalString DecimalPos DecimalZ.
From Stdlib Require Import Sorted.
Import ListNotations.
Local Open Scope string_scope.
Local Open Scope list_scope.
Local Open Scope nat_scope.

(** ** Plain JavaScript objects with string keys *)

Module JsObject.

Section Defs.
Context {V : Type}.

Definition t : Type := list (string * V).

Definition empty : t := [].

(** [o[k]]: [None] stands for [undefined]. *)
Fixpoint get (o : t) (k : string) : option V :=
  match o with
  | [] => None
  | (k', v) :: o' => if String.eqb k' k then Some v else get o' k
  end.

(** [o[k] = v]: an existing property keeps its place, a new one goes
    last. *)
Fixpoint set (o : t) (k : string) (v : V) : t :=
  match o with
  | [] => [(k, v)]
  | (k', v') :: o' =>
      if String.eqb k' k then (k', v) :: o' else (k', v') :: set o' k v
  end.

(** [Object.keys(o)]. *)
Definition keys (o : t) : list string := map fst o.

(** Truthiness of [o[k]] when the values are objects or arrays. *)
Definition has (o : t) (k : string) : bool :=
  match get o k with Some _ => true | None => false end.

(** An object has each property once. *)
Definition wf (o : t) : Prop := NoDup (keys o).
End Defs.

Arguments t : clear implicits.

End JsObject.

Import JsObject.

(** ** Data model *)

Record EditorPosition := { line : Z; ch : Z }.

(** Modelled from the spec: the declaration of [CodeError] is not among
    the sources; it has [filePath], [from], [to], [message] and fields the
    cache never reads, which [payload] stands for. *)
Record CodeError := {
  filePath : string;
  from : EditorPosition;
  to : EditorPosition;
  message : string;
  payload : string
}.

Definition ErrorsByFilePath : Type := JsObject.t (list CodeError).

Record ErrorCacheDelta := {
  added : ErrorsByFilePath;
  removed : ErrorsByFilePath
}.

Record LimitedErrorsUpdate := {
  errorsByFilePath : ErrorsByFilePath;
  totalCount : nat;
  syncCount : nat;
  tooMany : bool
}.

(** Decimal rendering of an integer, as a template literal does. *)
Definition numberToString (z : Z) : string :=
  NilZero.string_of_int (Z.to_int z).

(** What we use to identify a unique error:
    [`${error.from.line}:${error.from.ch}:${error.message}`]. *)
Definition errorKey (error : CodeError) : string :=
  numberToString (line (from error)) ++ ":" ++
  numberToString (ch (from error)) ++ ":" ++ message error.

(** Modelled from the spec: [createMapByKey] of common/utils is not among
    the sources.  It groups the items by their key ("groups diagnostics by
    filePath", "a lookup built from the list's identity keys"): every key
    maps to the array of the items that have it, in their order. *)
Definition createMapByKey {V : Type} (items : list V) (makeKey : V -> string)
  : JsObject.t (list V) :=
  fold_left
    (fun res item =>
       let key := makeKey item in
       set res key (match get res key with
                    | Some l => l ++ [item]
                    | None => [item]
                    end))
    items empty.

(** ** Structural equality, as [deep-equal] decides it on these values *)

Definition EditorPosition_eqb (p q : EditorPosition) : bool :=
  Z.eqb (line p) (line q) && Z.eqb (ch p) (ch q).

Definition CodeError_eqb (a b : CodeError) : bool :=
  String.eqb (filePath a) (filePath b) &&
  EditorPosition_eqb (from a) (from b) &&
  EditorPosition_eqb (to a) (to b) &&
  String.eqb (message a) (message b) &&
  String.eqb (payload a) (payload b).

Fixpoint array_eqb (l1 l2 : list CodeError) : bool :=
  match l1, l2 with
  | [], [] => true
  | a :: l1', b :: l2' => CodeError_eqb a b && array_eqb l1' l2'
  | _, _ => false
  end.

(** [equal(actual, expected)] where [actual] may be [undefined] and
    [expected] is an array. *)
Definition equal (actual : option (list CodeError))
                 (expected : list CodeError) : bool :=
  match actual with
  | None => false
  | Some l => array_eqb l expected
  end.

(** ** The cache *)

(** Modelled from the spec: [TypedEvent] (common/events) and [debounce]
    (common/utils) are not among the sources.  An event is represented by
    the values emitted on it so far, oldest first.  Calls of a debounced
    function within the quiet window collapse into one trailing run of its
    body: a call arms the timer ([sendErrorsPending]), and the body runs
    once when the timer runs out. *)
Record ErrorsCache := {
  errorsUpdated : list LimitedErrorsUpdate;
  errorsDelta : list ErrorCacheDelta;
  lastErrorsByFilePath : ErrorsByFilePath;
  _errorsByFilePath : ErrorsByFilePath;
  sendErrorsPending : bool
}.

(** [new ErrorsCache()]. *)
Definition newErrorsCache : ErrorsCache :=
  {| errorsUpdated := []; errorsDelta := [];
     lastErrorsByFilePath := empty; _errorsByFilePath := empty;
     sendErrorsPending := false |}.

Definition with_errorsByFilePath (c : ErrorsCache) (s : ErrorsByFilePath)
  : ErrorsCache :=
  {| errorsUpdated := errorsUpdated c; errorsDelta := errorsDelta c;
     lastErrorsByFilePath := lastErrorsByFilePath c;
     _errorsByFilePath := s;
     sendErrorsPending := sendErrorsPending c |}.

(** [this.sendErrors()]: the debounced call. *)
Definition sendErrors (c : ErrorsCache) : ErrorsCache :=
  {| errorsUpdated := errorsUpdated c; errorsDelta := errorsDelta c;
     lastErrorsByFilePath := lastErrorsByFilePath c;
     _errorsByFilePath := _errorsByFilePath c;
     sendErrorsPending := true |}.

(** *** getErrorsLimited *)

(** The [for (let filePath in this._errorsByFilePath)] loop with its
    [break]; [entries] are the properties not visited yet. *)
Fixpoint getErrorsLimited_loop (entries : ErrorsByFilePath)
    (limitedCopy : ErrorsByFilePath) (total : nat)
  : ErrorsByFilePath * nat :=
  match entries with
  | [] => (limitedCopy, total)
  | (filePath, errors) :: rest =>
      let errors :=
        if 50 <? List.length errors then firstn 50 errors else errors in
      let limitedCopy := set limitedCopy filePath errors in
      let total := total + List.length errors in
      if 200 <? total then (limitedCopy, total)
      else getErrorsLimited_loop rest limitedCopy total
  end.

Definition getErrorsLimited_of (store : ErrorsByFilePath)
  : LimitedErrorsUpdate :=
  let '(limitedCopy, total) := getErrorsLimited_loop store empty 0 in
  let totalCount :=
    fold_left (fun acc i => acc + i)
              (map (fun x => List.length (snd x)) store) 0 in
  {| errorsByFilePath := limitedCopy;
     totalCount := totalCount;
     syncCount := total;
     tooMany := negb (total =? totalCount) |}.

Definition getErrorsLimited (c : ErrorsCache) : LimitedErrorsUpdate :=
  getErrorsLimited_of (_errorsByFilePath c).

(** *** The delta of sendErrors *)

(** [if (!delta.added[filePath]) delta.added[filePath] = [];
     delta.added[filePath].push(ne)] *)
Definition push (o : ErrorsByFilePath) (filePath : string) (e : CodeError)
  : ErrorsByFilePath :=
  let o1 := if has o filePath then o else set o filePath [] in
  match get o1 filePath with
  | Some l => set o1 filePath (l ++ [e])
  | None => o1
  end.

(** One round of the "Added" [forEach]: [entry] is a file path of the new
    snapshot with its list [newErrorsByFilePath[filePath]]. *)
Definition sendErrors_added (oldErrorsByFilePath : ErrorsByFilePath)
    (added : ErrorsByFilePath) (entry : string * list CodeError)
  : ErrorsByFilePath :=
  let '(filePath, newErrors) := entry in
  match get oldErrorsByFilePath filePath with
  | None => set added filePath newErrors
  | Some oldErrors =>
      let oldErrorMap := createMapByKey oldErrors errorKey in
      fold_left
        (fun added ne =>
           let newErrorKey := errorKey ne in
           if has oldErrorMap newErrorKey then added
           else push added filePath ne)
        newErrors added
  end.

(** One round of the "Removed" [forEach]: [entry] is a file path of the
    old snapshot with its list [oldErrorsByFilePath[filePath]]. *)
Definition sendErrors_removed (newErrorsByFilePath : ErrorsByFilePath)
    (removed : ErrorsByFilePath) (entry : string * list CodeError)
  : ErrorsByFilePath :=
  let '(filePath, oldErrors) := entry in
  match get newErrorsByFilePath filePath with
  | None => set removed filePath oldErrors
  | Some newErrors =>
      let newErrorMap := createMapByKey newErrors errorKey in
      fold_left
        (fun removed oe =>
           let oldErrorKey := errorKey oe in
           if has newErrorMap oldErrorKey then removed
           else push removed filePath oe)
        oldErrors removed
  end.

(** "Create a delta": the block of [sendErrors] between the two emits. *)
Definition sendErrors_delta (oldErrorsByFilePath newErrorsByFilePath
                             : ErrorsByFilePath) : ErrorCacheDelta :=
  {| added :=
       fold_left (sendErrors_added oldErrorsByFilePath)
                 newErrorsByFilePath empty;
     removed :=
       fold_left (sendErrors_removed newErrorsByFilePath)
                 oldErrorsByFilePath empty
  |}.

(** "Preserve for future delta": a fresh object with the same
    properties. *)
Definition preserve (store : ErrorsByFilePath) : ErrorsByFilePath :=
  fold_left (fun last entry => set last (fst entry) (snd entry)) store empty.

(** The body of the debounced [sendErrors]. *)
Definition sendErrors_body (c : ErrorsCache) : ErrorsCache :=
  let delta :=
    sendErrors_delta (lastErrorsByFilePath c) (_errorsByFilePath c) in
  {| errorsUpdated := errorsUpdated c ++ [getErrorsLimited c];
     errorsDelta := errorsDelta c ++ [delta];
     lastErrorsByFilePath := preserve (_errorsByFilePath c);
     _errorsByFilePath := _errorsByFilePath c;
     sendErrorsPending := false |}.

(** The debounce timer runs out. *)
Definition timerFires (c : ErrorsCache) : ErrorsCache :=
  if sendErrorsPending c then sendErrors_body c else c.

(** *** applyDelta *)

Definition applyDelta_added (store : ErrorsByFilePath)
    (entry : string * list CodeError) : ErrorsByFilePath :=
  let '(fp, addedErrors) := entry in
  match get store fp with
  | None => set store fp addedErrors
  | Some l => set store fp (l ++ addedErrors)
  end.

Definition applyDelta_removed (store : ErrorsByFilePath)
    (entry : string * list CodeError) : ErrorsByFilePath :=
  let '(fp, removedErrors) := entry in
  let removedErrorsMap := createMapByKey removedErrors errorKey in
  set store fp
      (filter (fun e => negb (has removedErrorsMap (errorKey e)))
              (match get store fp with Some l => l | None => [] end)).

Definition applyDelta_store (store : ErrorsByFilePath)
    (delta : ErrorCacheDelta) : ErrorsByFilePath :=
  fold_left applyDelta_removed (removed delta)
            (fold_left applyDelta_added (added delta) store).

Definition applyDelta (delta : ErrorCacheDelta) (c : ErrorsCache)
  : ErrorsCache :=
  sendErrors
    (with_errorsByFilePath c (applyDelta_store (_errorsByFilePath c) delta)).

(** *** setErrorsByFilePaths *)

(** "For all found errors add them". *)
Definition setErrors_found (st : ErrorsByFilePath * bool)
    (entry : string * list CodeError) : ErrorsByFilePath * bool :=
  let '(store, somethingNew) := st in
  let '(filePath, errors) := entry in
  if negb (equal (get store filePath) errors)
  then (set store filePath errors, true)
  else (store, somethingNew).

(** "For not found errors clear them". *)
Definition setErrors_notFound (errorsByFile : ErrorsByFilePath)
    (st : ErrorsByFilePath * bool) (filePath : string)
  : ErrorsByFilePath * bool :=
  let '(store, somethingNew) := st in
  if negb (has errorsByFile filePath) &&
     match get store filePath with
     | Some l => negb (List.length l =? 0)
     | None => false
     end
  then (set store filePath [], true)
  else (store, somethingNew).

(** The two loops: the store they leave and [somethingNew]. *)
Definition setErrorsByFilePaths_loops (filePaths : list string)
    (errors : list CodeError) (store : ErrorsByFilePath)
  : ErrorsByFilePath * bool :=
  let errorsByFile := createMapByKey errors filePath in
  fold_left (setErrors_notFound errorsByFile) filePaths
            (fold_left setErrors_found errorsByFile (store, false)).

Definition setErrorsByFilePaths (filePaths : list string)
    (errors : list CodeError) (c : ErrorsCache) : ErrorsCache :=
  let '(store, somethingNew) :=
    setErrorsByFilePaths_loops filePaths errors (_errorsByFilePath c) in
  let c' := with_errorsByFilePath c store in
  if somethingNew then sendErrors c' else c'.

(** *** Clearing and querying *)

Definition clearErrors (c : ErrorsCache) : ErrorsCache :=
  sendErrors (with_errorsByFilePath c empty).

Definition clearErrorsForFilePath (filePath : string) (c : ErrorsCache)
  : ErrorsCache :=
  sendErrors
    (with_errorsByFilePath c (set (_errorsByFilePath c) filePath [])).

Definition getErrorsForFilePath_of (store : ErrorsByFilePath)
    (filePath : string) : list CodeError :=
  match get store filePath with Some l => l | None => [] end.

Definition getErrorsForFilePath (filePath : string) (c : ErrorsCache)
  : list CodeError :=
  getErrorsForFilePath_of (_errorsByFilePath c) filePath.

(** ** The scenario of the two-file update *)

Definition mkError (fp : string) (l c : Z) (msg : string)
    (t : EditorPosition) (pl : string) : CodeError :=
  {| filePath := fp; from := {| line := l; ch := c |};
     to := t; message := msg; payload := pl |}.

Definition e1 := mkError "a.ts" 1 2 "msg1" {| line := 1; ch := 3 |} "".
Definition e2 := mkError "b.ts" 3 4 "msg2" {| line := 3; ch := 5 |} "".
Definition e3 :=
  mkError "a.ts" 1 2 "msg1-changed" {| line := 1; ch := 3 |} "".

Definition scenarioStore : ErrorsByFilePath :=
  [("a.ts", [e1]); ("b.ts", [e2])].

(** A cache whose store and last sent snapshot are both [store]. *)
Definition cacheOf (store : ErrorsByFilePath) : ErrorsCache :=
  {| errorsUpdated := []; errorsDelta := [];
     lastErrorsByFilePath := store;
     _errorsByFilePath := store;
     sendErrorsPending := false |}.

Definition scenarioCache : ErrorsCache := cacheOf scenarioStore.

(** ** Vocabulary of the statements *)

(** A decidable form of [wf], for concrete objects. *)
Fixpoint wfb {V : Type} (o : JsObject.t V) : bool :=
  match o with
  | [] => true
  | (k, _) :: o' => negb (has o' k) && wfb o'
  end.

(** The identity keys a store holds, path by path. *)
Definition identityKeys (store : ErrorsByFilePath) : list (string * string) :=
  flat_map (fun entry => map (fun e => (fst entry, errorKey e)) (snd entry))
           store.

(** The identity keys of a list of errors. *)
Definition keysOf (errors : list CodeError) : list string :=
  map errorKey errors.

(** [k] is the key of one of [errors]. *)
Definition keyIn (errors : list CodeError) (k : string) : bool :=
  existsb (fun e => String.eqb (errorKey e) k) errors.

(** The errors of [these] whose key is none of the keys of [those]. *)
Definition notIn (those these : list CodeError) : list CodeError :=
  filter (fun e => negb (keyIn those (errorKey e))) these.

(** No character of the string is a colon. *)
Fixpoint noColon (s : string) : Prop :=
  match s with
  | EmptyString => True
  | String a s' => a <> ":"%char /\ noColon s'
  end.

(** A property with its list cut to 50 errors. *)
Definition capEntry (entry : string * list CodeError)
  : string * list CodeError :=
  (fst entry, firstn 50 (snd entry)).

(** The number of errors the properties hold once each is cut to 50. *)
Definition cappedCount (entries : ErrorsByFilePath) : nat :=
  list_sum (map (fun entry => List.length (snd (capEntry entry))) entries).

(** The number of errors the properties hold. *)
Definition errorCount (entries : ErrorsByFilePath) : nat :=
  list_sum (map (fun entry => List.length (snd entry)) entries).

(** Six files with 250 errors between them. *)
Definition sixFiles : ErrorsByFilePath :=
  [("f1", repeat e1 50); ("f2", repeat e1 50); ("f3", repeat e1 50);
   ("f4", repeat e1 50); ("f5", repeat e1 25); ("f6", repeat e1 25)].

(** ** Vocabulary of the further properties *)

(** The errors of a batch that belong to a file path, in the order of the
    batch. *)
Definition batchAt (errors : list CodeError) (p : string) : list CodeError :=
  filter (fun e => String.eqb (filePath e) p) errors.

(** Two stores hold the same (file path, identity key) pairs. *)
Definition keyEquivalent (s1 s2 : ErrorsByFilePath) : Prop :=
  forall p k, In (p, k) (identityKeys s1) <-> In (p, k) (identityKeys s2).

(** The test of the second loop for a path. *)
Definition clears (errorsByFile store : ErrorsByFilePath) (p : string)
  : bool :=
  negb (has errorsByFile p) &&
  negb (List.length (getErrorsForFilePath_of store p) =? 0).

(** ** The matched segments of the select list view (selectListView) *)

(** An element of [MatchedSegments]. *)
Record MatchedSegment := { str : string; matched : bool }.

(** The three variables the loop of [getMatchedSegments] updates. *)
Record SegmentsState := {
  currentUnmatchedCharacters : list ascii;
  currentMatchedCharacters : list ascii;
  combined : list MatchedSegment
}.

(** [chars.length] as a condition. *)
Definition nonEmpty {A : Type} (l : list A) : bool :=
  negb (List.length l =? 0).

Definition closeOffUnmatched (st : SegmentsState) : SegmentsState :=
  if nonEmpty (currentUnmatchedCharacters st)
  then {| currentUnmatchedCharacters := [];
          currentMatchedCharacters := currentMatchedCharacters st;
          combined :=
            combined st ++
            [ {| str := string_of_list_ascii (currentUnmatchedCharacters st);
                 matched := false |} ] |}
  else st.

Definition closeOffMatched (st : SegmentsState) : SegmentsState :=
  if nonEmpty (currentMatchedCharacters st)
  then {| currentUnmatchedCharacters := currentUnmatchedCharacters st;
          currentMatchedCharacters := [];
          combined :=
            combined st ++
            [ {| str := string_of_list_ascii (currentMatchedCharacters st);
                 matched := true |} ] |}
  else st.

(** One round of [result.split('').forEach((c, i) => ...)]; [matchMap i]
    is the truth value of [matchMap[i]], the map made of the indices that
    fuzzaldrin's [match] returns. *)
Definition getMatchedSegments_step (matchMap : nat -> bool)
    (st : SegmentsState) (ci : ascii * nat) : SegmentsState :=
  let '(c, i) := ci in
  let isMatched := matchMap i in
  if isMatched then
    if nonEmpty (currentMatchedCharacters st)
    then {| currentUnmatchedCharacters := currentUnmatchedCharacters st;
            currentMatchedCharacters := currentMatchedCharacters st ++ [c];
            combined := combined st |}
    else closeOffUnmatched
           {| currentUnmatchedCharacters := currentUnmatchedCharacters st;
              currentMatchedCharacters := [c];
              combined := combined st |}
  else
    if nonEmpty (currentUnmatchedCharacters st)
    then {| currentUnmatchedCharacters :=
              currentUnmatchedCharacters st ++ [c];
            currentMatchedCharacters := currentMatchedCharacters st;
            combined := combined st |}
    else closeOffMatched
           {| currentUnmatchedCharacters := [c];
              currentMatchedCharacters := currentMatchedCharacters st;
              combined := combined st |}.

(** The elements of an array with their indices, from [k] on. *)
Definition indexedFrom {A : Type} (k : nat) (l : list A) : list (A * nat) :=
  combine l (seq k (List.length l)).

(** The local function [getMatchedSegments] of [renderMatchedSegments]. *)
Definition getMatchedSegments (matchMap : nat -> bool) (result : string)
  : list MatchedSegment :=
  let st :=
    fold_left (getMatchedSegments_step matchMap)
              (indexedFrom 0 (list_ascii_of_string result))
              {| currentUnmatchedCharacters := [];
                 currentMatchedCharacters := [];
                 combined := [] |} in
  combined (closeOffUnmatched (closeOffMatched st)).

(** The characters of the segments, each with the flag of its segment. *)
Definition expandSegments (segments : list MatchedSegment)
  : list (ascii * bool) :=
  flat_map (fun seg => map (fun ch => (ch, matched seg))
                           (list_ascii_of_string (str seg)))
           segments.

(** No two neighbours of a list of flags are equal. *)
Fixpoint alternatingFlags (flags : list bool) : Prop :=
  match flags with
  | a :: ((b :: _) as rest) => a <> b /\ alternatingFlags rest
  | _ => True
  end.

(** Neighbouring segments differ in [matched]. *)
Definition alternating (segments : list MatchedSegment) : Prop :=
  alternatingFlags (map matched segments).

(** The two calls that end [getMatchedSegments]. *)
Definition closeOff (st : SegmentsState) : SegmentsState :=
  closeOffUnmatched (closeOffMatched st).

(** What the loop keeps true of its three variables. *)
Definition segmentsInvariant (st : SegmentsState) : Prop :=
  (currentUnmatchedCharacters st = [] \/ currentMatchedCharacters st = []) /\
  (currentUnmatchedCharacters st = [] -> currentMatchedCharacters st = [] ->
   combined st = []) /\
  (forall seg, In seg (combined (closeOff st)) -> str seg <> "") /\
  alternating (combined (closeOff st)).

(** ** Users of the cache: the active project and the project service *)

Module ProjectService.

(** [types.JSOutputState]. *)
Inductive JSOutputState := EmitSkipped | NoJSFile | JSUpToDate | JSOutOfDate.

(** An output file of [ts.EmitOutput]. *)
Record OutputFile := { name : string; text : string }.

Record EmitOutput := { outputFiles : list OutputFile; emitSkipped : bool }.

Record TextSpan := { start : Z; length : Z }.

(** A location found by [findRenameLocations]. *)
Record RenameLocation := { fileName : string; textSpan : TextSpan }.

(** What these functions read of a [project.Project]: whether it includes
    a file, the editor position of an offset in a file, the [compileOnSave]
    of its configuration file ([None] when it is not set) and the output
    [getRawOutput] gives for a file. *)
Record Project := {
  includesSourceFile : string -> bool;
  getLineAndCharacterOfPosition : string -> Z -> EditorPosition;
  compileOnSave : option bool;
  getRawOutput : string -> EmitOutput
}.

(** The errors thrown by [GetProject]. *)
Inductive Thrown :=
| CALLED_WHEN_NO_ACTIVE_PROJECT_FOR_FILE_PATH
| CALLED_WHEN_NO_ACTIVE_PROJECT_GLOBAL.

(** [GetProject.ifCurrent]; [currentProject] is [None] when it is
    [null]. *)
Definition ifCurrent (currentProject : option Project) (filePath : string)
  : option Project :=
  match currentProject with
  | Some project =>
      if includesSourceFile project filePath then Some project else None
  | None => None
  end.

(** [GetProject.ifCurrentOrErrorOut]. *)
Definition ifCurrentOrErrorOut (currentProject : option Project)
    (filePath : string) : Thrown + Project :=
  match ifCurrent currentProject filePath with
  | Some proj => inr proj
  | None => inl CALLED_WHEN_NO_ACTIVE_PROJECT_FOR_FILE_PATH
  end.

(** The test of the [filter] of [positionErrors]. *)
Definition atPosition (editorPos : EditorPosition) (e : CodeError) : bool :=
  ((line (from e) <? line editorPos)%Z && (line (to e) >? line editorPos)%Z)
  || ((line (from e) =? line (to e))%Z &&
      (line (from e) =? line editorPos)%Z &&
      (ch (from e) <=? ch editorPos)%Z &&
      (ch (to e) >=? ch editorPos)%Z).

(** [positionErrors]: the errors of the cache at a position of a file. *)
Definition positionErrors (currentProject : option Project)
    (errorsCache : ErrorsCache) (filePath : string) (position : Z)
  : Thrown + list CodeError :=
  match ifCurrentOrErrorOut currentProject filePath with
  | inl thrown => inl thrown
  | inr project =>
      if negb (includesSourceFile project filePath) then inr []
      else
        let editorPos :=
          getLineAndCharacterOfPosition project filePath position in
        let errors := getErrorsForFilePath filePath errorsCache in
        inr (filter (atPosition editorPos) errors)
  end.

(** The loop of [getRenameInfo] that files the locations:
    [if (!locations[loc.fileName]) locations[loc.fileName] = [];
     locations[loc.fileName].unshift(loc.textSpan)]. *)
Definition getRenameInfo_locations (found : list RenameLocation)
  : JsObject.t (list TextSpan) :=
  fold_left
    (fun locations loc =>
       let locations :=
         if has locations (fileName loc) then locations
         else set locations (fileName loc) [] in
       match get locations (fileName loc) with
       | Some spans => set locations (fileName loc) (textSpan loc :: spans)
       | None => locations
       end)
    found empty.

(** [s.endsWith(suffix)]. *)
Definition endsWith (s suffix : string) : bool :=
  let n := String.length s in
  let m := String.length suffix in
  (m <=? n) && String.eqb (substring (n - m) m s) suffix.

(** The files on disk, through [fsu]: [None] when [existsSync] is
    false. *)
Definition Disk : Type := string -> option string.

(** [fsu.existsSync(filePath) ? fsu.readFile(filePath) : ''] *)
Definition getContents (disk : Disk) (filePath : string) : string :=
  match disk filePath with Some contents => contents | None => "" end.

(** [fsu.writeFile]. *)
Definition setContents (disk : Disk) (filePath contents : string) : Disk :=
  fun p => if String.eqb p filePath then Some contents else disk p.

Record JSOutputStatus := {
  inputFilePath : string;
  state : JSOutputState;
  outputFilePath : option string
}.

Definition JSOutputState_eqb (a b : JSOutputState) : bool :=
  match a, b with
  | EmitSkipped, EmitSkipped | NoJSFile, NoJSFile
  | JSUpToDate, JSUpToDate | JSOutOfDate, JSOutOfDate => true
  | _, _ => false
  end.

(** [c === false] for an optional boolean. *)
Definition isFalse (c : option bool) : bool :=
  match c with Some false => true | _ => false end.

(** [getJSOutputStatus]: the response ([None] for
    [{inActiveProject: false}]) and the disk it leaves.  The two [None]
    branches on [jsFile] are never taken: the state is not [JSOutOfDate]
    without a [jsFile]. *)
Definition getJSOutputStatus (currentProject : option Project)
    (filePath : string) (autoEmit : bool) (disk : Disk)
  : option JSOutputStatus * Disk :=
  match ifCurrent currentProject filePath with
  | None => (None, disk)
  | Some project =>
      let output := getRawOutput project filePath in
      let jsFile :=
        hd_error (filter (fun x => endsWith (name x) ".js")
                         (outputFiles output)) in
      let state :=
        if emitSkipped output then EmitSkipped
        else if isFalse (compileOnSave project) ||
                match jsFile with Some _ => false | None => true end
        then NoJSFile
        else
          match jsFile with
          | Some js =>
              if String.eqb (getContents disk (name js)) (text js)
              then JSUpToDate else JSOutOfDate
          | None => NoJSFile
          end in
      let '(disk, state) :=
        if autoEmit && JSOutputState_eqb state JSOutOfDate &&
           negb (isFalse (compileOnSave project))
        then
          match jsFile with
          | Some js => (setContents disk (name js) (text js), JSUpToDate)
          | None => (disk, state)
          end
        else (disk, state) in
      (Some {| inputFilePath := filePath;
               state := state;
               outputFilePath := option_map name jsFile |},
       disk)
  end.

(** A project of one file, a.ts, whose output a.js is not on disk yet. *)
Definition oneFileProject : Project :=
  {| includesSourceFile := fun p => String.eqb p "a.ts";
     getLineAndCharacterOfPosition :=
       fun _ position => {| line := 1; ch := position |};
     compileOnSave := None;
     getRawOutput :=
       fun _ => {| outputFiles :=
                     [ {| name := "a.js.map"; text := "{}" |};
                       {| name := "a.js"; text := "var a;" |} ];
                   emitSkipped := false |} |}.

End ProjectService.

Ltac split_all :=
  repeat split; intros;
  repeat match goal with H : _ /\ _ |- _ => destruct H end;
  try discriminate; try congruence; auto.

(** * Examples *)

Example errorKey_ex :
  errorKey {| filePath := "a.ts"; from := {| line := 1; ch := 2 |};
              to := {| line := 1; ch := 9 |}; message := "msg1";
              payload := "" |} = "1:2:msg1".
Proof. reflexivity. Qed.

Example numberToString_ex :
  numberToString 0 = "0" /\ numberToString (-15) = "-15" /\
  numberToString 1203 = "1203".
Proof. repeat split. Qed.

(** * Facts about objects *)

Module JsObjectFacts.

Section Facts.
Context {V : Type}.
Implicit Types (o : JsObject.t V) (k : string) (v : V).

Lemma get_set_eq o k v : get (set o k v) k = Some v.
Proof.
  induction o as [|[k' v'] o IH]; simpl.
  - now rewrite String.eqb_refl.
  - destruct (String.eqb k' k) eqn:E; simpl; rewrite E; auto.
Qed.

Lemma get_set_ne o k k' v : k <> k' -> get (set o k v) k' = get o k'.
Proof.
  intros Hne. induction o as [|[k0 v0] o IH]; simpl.
  - destruct (String.eqb_spec k k'); congruence.
  - destruct (String.eqb_spec k0 k) as [->|Hk]; simpl.
    + destruct (String.eqb_spec k k'); congruence.
    + now rewrite IH.
Qed.

Lemma get_None_keys o k : get o k = None <-> ~ In k (keys o).
Proof.
  induction o as [|[k' v'] o IH]; simpl.
  - tauto.
  - destruct (String.eqb_spec k' k) as [->|Hk].
    + split; [discriminate | tauto].
    + rewrite IH. tauto.
Qed.

Lemma get_Some_keys o k v : get o k = Some v -> In k (keys o).
Proof.
  intros H. destruct (in_dec string_dec k (keys o)) as [|Hn]; auto.
  apply get_None_keys in Hn. congruence.
Qed.

Lemma get_Some_In o k v : get o k = Some v -> In (k, v) o.
Proof.
  induction o as [|[k' v'] o IH]; simpl; [discriminate|].
  destruct (String.eqb_spec k' k) as [->|Hk].
  - intros [= ->]. now left.
  - auto.
Qed.

Lemma In_get o k v : wf o -> In (k, v) o -> get o k = Some v.
Proof.
  unfold wf. induction o as [|[k' v'] o IH]; simpl; [tauto|].
  intros Hnd [[= -> ->]|Hin].
  - now rewrite String.eqb_refl.
  - inversion Hnd as [|? ? Hk' Hnd']; subst.
    destruct (String.eqb_spec k' k) as [->|Hk].
    + exfalso. apply Hk'. apply (in_map fst) in Hin. exact Hin.
    + auto.
Qed.

(** [Object.keys(o).map(k => o[k])] reads the values in the order of the
    list: a loop over the keys that looks each one up is a loop over the
    pairs. *)
Lemma keys_get o : wf o -> map (get o) (keys o) = map (fun e => Some (snd e)) o.
Proof.
  intros Hwf. unfold keys. rewrite map_map.
  apply map_ext_in. intros [k v] Hin. simpl. now apply In_get.
Qed.

Lemma set_fresh o k v : get o k = None -> set o k v = o ++ [(k, v)].
Proof.
  induction o as [|[k' v'] o IH]; simpl; auto.
  destruct (String.eqb k' k); [discriminate|].
  intros H. now rewrite IH.
Qed.

Lemma keys_set_present o k v :
  has o k = true -> keys (set o k v) = keys o.
Proof.
  unfold has. induction o as [|[k' v'] o IH]; simpl; [discriminate|].
  destruct (String.eqb k' k); simpl; auto.
  intros H. now rewrite IH.
Qed.

Lemma keys_set o k v :
  keys (set o k v) = if has o k then keys o else keys o ++ [k].
Proof.
  destruct (has o k) eqn:E.
  - now apply keys_set_present.
  - unfold has in E. destruct (get o k) eqn:G; [discriminate|].
    rewrite set_fresh by assumption. unfold keys. now rewrite map_app.
Qed.

Lemma wf_set o k v : wf o -> wf (set o k v).
Proof.
  unfold wf. rewrite keys_set. intros H.
  destruct (has o k) eqn:E; auto.
  unfold has in E. destruct (get o k) eqn:G; [discriminate|].
  apply get_None_keys in G.
  apply NoDup_app; auto.
  - repeat constructor. simpl. tauto.
  - intros x Hx [<-|[]]. contradiction.
Qed.

Lemma set_set o k v v' : set (set o k v) k v' = set o k v'.
Proof.
  induction o as [|[k0 v0] o IH]; simpl.
  - now rewrite String.eqb_refl.
  - destruct (String.eqb k0 k) eqn:E; simpl; rewrite E; congruence.
Qed.

Lemma set_same o k v : get o k = Some v -> set o k v = o.
Proof.
  induction o as [|[k' v'] o IH]; simpl; [discriminate|].
  destruct (String.eqb k' k).
  - now intros [= ->].
  - intros H. now rewrite IH.
Qed.

Lemma has_get_Some o k : has o k = true <-> exists v, get o k = Some v.
Proof.
  unfold has. destruct (get o k); split; eauto; try discriminate.
  intros [? [=]].
Qed.

Lemma wfb_wf o : wfb o = true -> wf o.
Proof.
  unfold wf. induction o as [|[k v] o IH]; simpl; [constructor|].
  intros H. apply andb_prop in H as [Hk Ho].
  constructor; auto.
  apply get_None_keys. unfold has in Hk. now destruct (get o k).
Qed.
End Facts.

(** A loop over the properties of an object whose round for a path
    reads and writes the accumulator at that path only. *)
Section PerKey.
Context {V A : Type}.
Variable step : JsObject.t V -> string * A -> JsObject.t V.
Hypothesis step_other :
  forall acc q a p, q <> p -> get (step acc (q, a)) p = get acc p.
Hypothesis step_at :
  forall acc acc' p a,
    get acc p = get acc' p ->
    get (step acc (p, a)) p = get (step acc' (p, a)) p.

Lemma fold_get (entries : JsObject.t A) :
  wf entries ->
  forall acc p,
    get (fold_left step entries acc) p =
    match get entries p with
    | None => get acc p
    | Some a => get (step acc (p, a)) p
    end.
Proof.
  unfold wf.
  induction entries as [|[q a] entries IH]; simpl; intros Hnd acc p; auto.
  inversion Hnd as [|? ? Hq Hnd']; subst.
  rewrite IH by assumption.
  destruct (String.eqb_spec q p) as [->|Hqp].
  - apply get_None_keys in Hq. now rewrite Hq.
  - destruct (get entries p) as [a'|] eqn:G.
    + apply step_at. now apply step_other.
    + now apply step_other.
Qed.

Hypothesis step_wf : forall acc e, wf acc -> wf (step acc e).

Lemma fold_wf (entries : list (string * A)) acc :
  wf acc -> wf (fold_left step entries acc).
Proof.
  revert acc. induction entries as [|e entries IH]; simpl; auto.
Qed.
End PerKey.

End JsObjectFacts.

Import JsObjectFacts.

(** * Facts about the helpers *)

Lemma existsb_filter {A : Type} (P : A -> bool) (l : list A) :
  existsb P l = match filter P l with [] => false | _ :: _ => true end.
Proof.
  induction l as [|a l IH]; simpl; auto.
  destruct (P a); simpl; auto.
Qed.

Section CreateMapByKey.
Context {V : Type}.
Variable makeKey : V -> string.

Lemma createMapByKey_snoc (items : list V) (item : V) :
  createMapByKey (items ++ [item]) makeKey =
  set (createMapByKey items makeKey) (makeKey item)
      (match get (createMapByKey items makeKey) (makeKey item) with
       | Some l => l ++ [item]
       | None => [item]
       end).
Proof. unfold createMapByKey. now rewrite fold_left_app. Qed.

Lemma createMapByKey_get (items : list V) (k : string) :
  get (createMapByKey items makeKey) k =
  match filter (fun i => String.eqb (makeKey i) k) items with
  | [] => None
  | l => Some l
  end.
Proof.
  induction items as [|item items IH] using rev_ind; [reflexivity|].
  rewrite createMapByKey_snoc, filter_app. simpl.
  destruct (String.eqb_spec (makeKey item) k) as [<-|Hne].
  - rewrite get_set_eq, IH.
    now destruct (filter _ items).
  - rewrite get_set_ne, IH, app_nil_r by assumption. reflexivity.
Qed.

Lemma createMapByKey_has (items : list V) (k : string) :
  has (createMapByKey items makeKey) k =
  existsb (fun i => String.eqb (makeKey i) k) items.
Proof.
  unfold has. rewrite createMapByKey_get, existsb_filter.
  now destruct (filter _ items).
Qed.

Lemma createMapByKey_wf (items : list V) :
  wf (createMapByKey items makeKey).
Proof.
  induction items as [|item items IH] using rev_ind.
  - constructor.
  - rewrite createMapByKey_snoc. now apply wf_set.
Qed.

Lemma createMapByKey_keys (items : list V) (k : string) :
  In k (keys (createMapByKey items makeKey)) <-> In k (map makeKey items).
Proof.
  split.
  - intros Hin. destruct (get (createMapByKey items makeKey) k) eqn:G.
    + rewrite createMapByKey_get in G.
      destruct (filter _ items) as [|i l'] eqn:F; [discriminate|].
      assert (Hi : In i (filter (fun i => String.eqb (makeKey i) k) items))
        by (rewrite F; now left).
      apply filter_In in Hi as [Hi Hk].
      apply String.eqb_eq in Hk. subst k. now apply in_map.
    + apply get_None_keys in G. contradiction.
  - intros Hin. apply in_map_iff in Hin as [i [<- Hi]].
    destruct (get (createMapByKey items makeKey) (makeKey i)) eqn:G.
    + eapply get_Some_keys; eauto.
    + rewrite createMapByKey_get in G.
      assert (Hf : In i (filter (fun j => String.eqb (makeKey j) (makeKey i))
                                items))
        by (apply filter_In; split; auto; apply String.eqb_refl).
      destruct (filter _ items); [destruct Hf | discriminate].
Qed.
End CreateMapByKey.

Lemma keyIn_spec (errors : list CodeError) (k : string) :
  keyIn errors k = true <-> In k (keysOf errors).
Proof.
  unfold keyIn, keysOf. rewrite existsb_exists, in_map_iff.
  split; intros [e [H1 H2]]; exists e.
  - apply String.eqb_eq in H2. tauto.
  - split; [tauto|]. apply String.eqb_eq. tauto.
Qed.

Lemma keyIn_false (errors : list CodeError) (k : string) :
  keyIn errors k = false <-> ~ In k (keysOf errors).
Proof.
  rewrite <- keyIn_spec. destruct (keyIn errors k); split; congruence.
Qed.

Lemma notIn_In (those these : list CodeError) (e : CodeError) :
  In e (notIn those these) <->
  In e these /\ ~ In (errorKey e) (keysOf those).
Proof.
  unfold notIn. rewrite filter_In, negb_true_iff, keyIn_false. tauto.
Qed.

Lemma getErrors_set_eq (o : ErrorsByFilePath) (k : string)
    (v : list CodeError) :
  getErrorsForFilePath_of (set o k v) k = v.
Proof. unfold getErrorsForFilePath_of. now rewrite get_set_eq. Qed.

Lemma getErrors_set_ne (o : ErrorsByFilePath) (k k' : string)
    (v : list CodeError) :
  k <> k' ->
  getErrorsForFilePath_of (set o k v) k' = getErrorsForFilePath_of o k'.
Proof.
  intros H. unfold getErrorsForFilePath_of. now rewrite get_set_ne.
Qed.

Lemma push_set (o : ErrorsByFilePath) (fp : string) (e : CodeError) :
  push o fp e = set o fp (getErrorsForFilePath_of o fp ++ [e]).
Proof.
  unfold push, getErrorsForFilePath_of, has.
  destruct (get o fp) as [l|] eqn:G.
  - now rewrite G.
  - now rewrite get_set_eq, set_set.
Qed.

Lemma delta_inner (P : CodeError -> bool) (fp : string)
    (l : list CodeError) (acc : ErrorsByFilePath) :
  fold_left (fun acc e => if P e then acc else push acc fp e) l acc =
  match filter (fun e => negb (P e)) l with
  | [] => acc
  | fl => set acc fp (getErrorsForFilePath_of acc fp ++ fl)
  end.
Proof.
  revert acc. induction l as [|e l IH]; intros acc; simpl; auto.
  destruct (P e); simpl; auto.
  rewrite IH, push_set.
  destruct (filter _ l) as [|x fl]; auto.
  rewrite getErrors_set_eq, set_set, <- app_assoc. reflexivity.
Qed.

Lemma sendErrors_added_eq (those acc : ErrorsByFilePath) (p : string)
    (l : list CodeError) :
  sendErrors_added those acc (p, l) =
  match get those p with
  | None => set acc p l
  | Some l' =>
      match notIn l' l with
      | [] => acc
      | fl => set acc p (getErrorsForFilePath_of acc p ++ fl)
      end
  end.
Proof.
  unfold sendErrors_added. destruct (get those p) as [l'|]; auto.
  cbv zeta. rewrite delta_inner. unfold notIn.
  erewrite filter_ext; [reflexivity|].
  intros e. simpl. now rewrite createMapByKey_has.
Qed.

Lemma sendErrors_added_other those acc q a p :
  q <> p -> get (sendErrors_added those acc (q, a)) p = get acc p.
Proof.
  intros Hne. rewrite sendErrors_added_eq.
  destruct (get those q) as [l'|].
  - destruct (notIn l' a); auto. now apply get_set_ne.
  - now apply get_set_ne.
Qed.

Lemma sendErrors_added_at those acc acc' p a :
  get acc p = get acc' p ->
  get (sendErrors_added those acc (p, a)) p =
  get (sendErrors_added those acc' (p, a)) p.
Proof.
  intros H. rewrite !sendErrors_added_eq.
  destruct (get those p) as [l'|].
  - destruct (notIn l' a); auto.
    unfold getErrorsForFilePath_of. now rewrite !get_set_eq, H.
  - now rewrite !get_set_eq.
Qed.

Lemma sendErrors_added_wf those acc e :
  wf acc -> wf (sendErrors_added those acc e).
Proof.
  destruct e as [p l]. intros H. rewrite sendErrors_added_eq.
  destruct (get those p) as [l'|].
  - destruct (notIn l' l); auto. now apply wf_set.
  - now apply wf_set.
Qed.

(** What one half of the delta holds for a path: [these] is the snapshot
    the loop walks, [those] the one it compares with. *)
Lemma delta_get (those these : ErrorsByFilePath) (p : string) :
  wf these ->
  get (fold_left (sendErrors_added those) these empty) p =
  match get these p with
  | None => None
  | Some l =>
      match get those p with
      | None => Some l
      | Some l' =>
          match notIn l' l with [] => None | fl => Some fl end
      end
  end.
Proof.
  intros Hwf.
  rewrite (fold_get _ (sendErrors_added_other those)
                    (sendErrors_added_at those)) by assumption.
  destruct (get these p) as [l|]; auto.
  rewrite sendErrors_added_eq.
  destruct (get those p) as [l'|].
  - destruct (notIn l' l); auto. now rewrite get_set_eq.
  - now rewrite get_set_eq.
Qed.

Lemma delta_wf (those these : ErrorsByFilePath) :
  wf (fold_left (sendErrors_added those) these empty).
Proof.
  apply fold_wf.
  - apply sendErrors_added_wf.
  - constructor.
Qed.

(** The two loops are the same loop with the snapshots exchanged. *)
Lemma sendErrors_delta_added (old new : ErrorsByFilePath) :
  added (sendErrors_delta old new) =
  fold_left (sendErrors_added old) new empty.
Proof. reflexivity. Qed.

Lemma sendErrors_delta_removed (old new : ErrorsByFilePath) :
  removed (sendErrors_delta old new) =
  fold_left (sendErrors_added new) old empty.
Proof. reflexivity. Qed.

Lemma notIn_nil_l (these : list CodeError) : notIn [] these = these.
Proof. unfold notIn. simpl. induction these; simpl; congruence. Qed.

(** Both halves of the delta, read as lists. *)
Lemma delta_list (those these : ErrorsByFilePath) (p : string) :
  wf these ->
  getErrorsForFilePath_of (fold_left (sendErrors_added those) these empty) p =
  notIn (getErrorsForFilePath_of those p) (getErrorsForFilePath_of these p).
Proof.
  intros Hwf. unfold getErrorsForFilePath_of at 1.
  rewrite delta_get by assumption. unfold getErrorsForFilePath_of.
  destruct (get these p) as [l|].
  - destruct (get those p) as [l'|].
    + now destruct (notIn l' l).
    + now rewrite notIn_nil_l.
  - now destruct (get those p).
Qed.

Lemma keysOf_notIn (those these : list CodeError) (k : string) :
  In k (keysOf (notIn those these)) <->
  In k (keysOf these) /\ ~ In k (keysOf those).
Proof.
  unfold keysOf at 1 2. rewrite !in_map_iff. split.
  - intros [e [<- He]]. apply notIn_In in He as [H1 H2].
    split; eauto.
  - intros [[e [<- He]] Hn]. exists e. split; auto.
    apply notIn_In. auto.
Qed.

(** ** applyDelta, phase by phase *)

Lemma applyDelta_added_eq (store : ErrorsByFilePath) (p : string)
    (a : list CodeError) :
  applyDelta_added store (p, a) =
  set store p (getErrorsForFilePath_of store p ++ a).
Proof.
  unfold applyDelta_added, getErrorsForFilePath_of.
  now destruct (get store p).
Qed.

Lemma applyDelta_added_get (addedErrors store : ErrorsByFilePath)
    (p : string) :
  wf addedErrors ->
  get (fold_left applyDelta_added addedErrors store) p =
  match get addedErrors p with
  | None => get store p
  | Some a => Some (getErrorsForFilePath_of store p ++ a)
  end.
Proof.
  intros Hwf. rewrite (fold_get applyDelta_added); auto.
  - destruct (get addedErrors p) as [a|]; auto.
    now rewrite applyDelta_added_eq, get_set_eq.
  - intros acc q a p' Hne. rewrite applyDelta_added_eq.
    now apply get_set_ne.
  - intros acc acc' p' a H. rewrite !applyDelta_added_eq, !get_set_eq.
    unfold getErrorsForFilePath_of. now rewrite H.
Qed.

Lemma applyDelta_removed_get (removedErrors store : ErrorsByFilePath)
    (p : string) :
  wf removedErrors ->
  get (fold_left applyDelta_removed removedErrors store) p =
  match get removedErrors p with
  | None => get store p
  | Some r =>
      Some (filter (fun e => negb (keyIn r (errorKey e)))
                   (getErrorsForFilePath_of store p))
  end.
Proof.
  intros Hwf.
  assert (Hstep : forall acc q r,
             applyDelta_removed acc (q, r) =
             set acc q (filter (fun e => negb (keyIn r (errorKey e)))
                               (getErrorsForFilePath_of acc q))).
  { intros acc q r. unfold applyDelta_removed. f_equal.
    apply filter_ext. intros e. now rewrite createMapByKey_has. }
  rewrite (fold_get applyDelta_removed); auto.
  - destruct (get removedErrors p) as [r|]; auto.
    now rewrite Hstep, get_set_eq.
  - intros acc q a p' Hne. rewrite Hstep. now apply get_set_ne.
  - intros acc acc' p' a H. rewrite !Hstep, !get_set_eq.
    unfold getErrorsForFilePath_of. now rewrite H.
Qed.

Lemma applyDelta_store_wf (store : ErrorsByFilePath)
    (delta : ErrorCacheDelta) :
  wf store -> wf (applyDelta_store store delta).
Proof.
  intros H. unfold applyDelta_store.
  apply fold_wf.
  - intros acc [q r] Hacc. now apply wf_set.
  - apply fold_wf; auto.
    intros acc [q a] Hacc. rewrite applyDelta_added_eq. now apply wf_set.
Qed.

(** The list a path has after [applyDelta]. *)
Lemma applyDelta_store_list (store : ErrorsByFilePath)
    (delta : ErrorCacheDelta) (p : string) :
  wf (added delta) -> wf (removed delta) ->
  getErrorsForFilePath_of (applyDelta_store store delta) p =
  filter (fun e =>
            negb (keyIn (getErrorsForFilePath_of (removed delta) p)
                        (errorKey e)))
         (getErrorsForFilePath_of store p ++
          getErrorsForFilePath_of (added delta) p).
Proof.
  intros Ha Hr. unfold applyDelta_store.
  assert (Hadd : getErrorsForFilePath_of
                   (fold_left applyDelta_added (added delta) store) p =
                 getErrorsForFilePath_of store p ++
                 getErrorsForFilePath_of (added delta) p).
  { unfold getErrorsForFilePath_of at 1.
    rewrite applyDelta_added_get by assumption.
    unfold getErrorsForFilePath_of.
    destruct (get (added delta) p); auto. now rewrite app_nil_r. }
  unfold getErrorsForFilePath_of at 1.
  rewrite applyDelta_removed_get by assumption.
  rewrite <- Hadd.
  unfold getErrorsForFilePath_of at 2.
  destruct (get (removed delta) p) as [r|]; auto.
  fold (getErrorsForFilePath_of
          (fold_left applyDelta_added (added delta) store) p).
  symmetry. apply (notIn_nil_l _).
Qed.

(** Identity keys of a store, through its per-path lists. *)
Lemma identityKeys_In (store : ErrorsByFilePath) (p k : string) :
  wf store ->
  In (p, k) (identityKeys store) <->
  In k (keysOf (getErrorsForFilePath_of store p)).
Proof.
  intros Hwf. unfold identityKeys. rewrite in_flat_map. split.
  - intros [[q l] [Hin Hk]]. simpl in Hk.
    apply in_map_iff in Hk as [e [[= <- <-] He]].
    unfold getErrorsForFilePath_of.
    rewrite (In_get _ _ _ Hwf Hin). now apply in_map.
  - unfold getErrorsForFilePath_of.
    destruct (get store p) as [l|] eqn:G; [|intros []].
    intros Hk. exists (p, l). split.
    + now apply get_Some_In.
    + simpl. unfold keysOf in Hk.
      apply in_map_iff in Hk as [e [<- He]].
      apply in_map_iff. eauto.
Qed.

Lemma keysOf_filter_app (r l1 l2 : list CodeError) (k : string) :
  In k (keysOf (filter (fun e => negb (keyIn r (errorKey e))) (l1 ++ l2)))
  <-> (In k (keysOf l1) \/ In k (keysOf l2)) /\ ~ In k (keysOf r).
Proof.
  unfold keysOf at 1 2 3. rewrite !in_map_iff. split.
  - intros [e [<- He]]. apply filter_In in He as [He Hk].
    apply negb_true_iff, keyIn_false in Hk. split; auto.
    apply in_app_or in He as [He|He]; [left|right]; eauto.
  - intros [[[e [<- He]]|[e [<- He]]] Hn]; exists e; split; auto;
      apply filter_In; rewrite negb_true_iff, keyIn_false;
      split; auto; apply in_or_app; auto.
Qed.

Lemma notIn_nil_iff (those these : list CodeError) :
  notIn those these = [] <->
  forall e, In e these -> In (errorKey e) (keysOf those).
Proof.
  split.
  - intros H e He.
    destruct (in_dec string_dec (errorKey e) (keysOf those)) as [|Hn]; auto.
    assert (Hin : In e (notIn those these)) by (apply notIn_In; auto).
    rewrite H in Hin. destruct Hin.
  - intros H. destruct (notIn those these) as [|x l] eqn:E; auto.
    assert (Hin : In x (notIn those these)) by (rewrite E; now left).
    apply notIn_In in Hin as [Hx Hn]. elim Hn. auto.
Qed.

(** * The delta and its application *)

(** C1. Applying the delta of two stores A and B to a cache that holds A
    leaves a store with the same (file path, identity key) pairs as B. *)
Theorem applyDelta_round_trip (A B : ErrorsByFilePath) (c : ErrorsCache) :
  wf A -> wf B -> _errorsByFilePath c = A ->
  forall p k,
    In (p, k)
       (identityKeys
          (_errorsByFilePath (applyDelta (sendErrors_delta A B) c))) <->
    In (p, k) (identityKeys B).
Proof.
  intros HA HB Hc p k.
  change (_errorsByFilePath (applyDelta (sendErrors_delta A B) c))
    with (applyDelta_store (_errorsByFilePath c) (sendErrors_delta A B)).
  rewrite Hc.
  rewrite !identityKeys_In by (auto using applyDelta_store_wf).
  rewrite applyDelta_store_list by apply delta_wf.
  rewrite !sendErrors_delta_added, !sendErrors_delta_removed.
  rewrite !delta_list by assumption.
  rewrite keysOf_filter_app, !keysOf_notIn.
  destruct (in_dec string_dec k (keysOf (getErrorsForFilePath_of A p)));
    destruct (in_dec string_dec k (keysOf (getErrorsForFilePath_of B p)));
    tauto.
Qed.

Lemma applyDelta_round_trip_witness :
  let B := [("a.ts", [e3]); ("b.ts", [])] in
  wf scenarioStore /\ wf B /\
  (forall p k,
     In (p, k)
        (identityKeys
           (_errorsByFilePath
              (applyDelta (sendErrors_delta scenarioStore B) scenarioCache)))
     <-> In (p, k) (identityKeys B)).
Proof.
  assert (HA : wf scenarioStore) by (apply wfb_wf; reflexivity).
  assert (HB : wf [("a.ts", [e3]); ("b.ts", [])])
    by (apply wfb_wf; reflexivity).
  split; [exact HA|]. split; [exact HB|].
  apply (applyDelta_round_trip scenarioStore _ scenarioCache HA HB).
  reflexivity.
Defined.

(** The round trip does not restore the payloads: an error of A that B
    replaces by one with the same key stays as it was. *)
Example applyDelta_round_trip_not_structural :
  let a := mkError "a.ts" 1 2 "msg1" {| line := 1; ch := 3 |} "" in
  let b := mkError "a.ts" 1 2 "msg1" {| line := 1; ch := 9 |} "warning" in
  let A := [("a.ts", [a])] in
  let B := [("a.ts", [b])] in
  sendErrors_delta A B = {| added := []; removed := [] |} /\
  applyDelta_store A (sendErrors_delta A B) = A /\ A <> B.
Proof. cbv zeta. repeat split. discriminate. Qed.

(** C3. For every path the added and the removed errors of a delta share
    no identity key; the added ones are the errors of B whose key A does
    not have at that path, the removed ones the errors of A whose key B
    does not have, and a key that both have is in neither list. *)
Theorem delta_partition (A B : ErrorsByFilePath) (p : string) :
  wf A -> wf B ->
  let addedAt := getErrorsForFilePath_of (added (sendErrors_delta A B)) p in
  let removedAt :=
    getErrorsForFilePath_of (removed (sendErrors_delta A B)) p in
  let atA := getErrorsForFilePath_of A p in
  let atB := getErrorsForFilePath_of B p in
  (forall k, In k (keysOf addedAt) -> ~ In k (keysOf removedAt)) /\
  (forall e, In e addedAt <->
             In e atB /\ ~ In (errorKey e) (keysOf atA)) /\
  (forall e, In e removedAt <->
             In e atA /\ ~ In (errorKey e) (keysOf atB)) /\
  (forall k, In k (keysOf addedAt) <->
             In k (keysOf atB) /\ ~ In k (keysOf atA)) /\
  (forall k, In k (keysOf removedAt) <->
             In k (keysOf atA) /\ ~ In k (keysOf atB)) /\
  (forall k, In k (keysOf atA) -> In k (keysOf atB) ->
             ~ In k (keysOf addedAt) /\ ~ In k (keysOf removedAt)).
Proof.
  intros HA HB. cbv zeta.
  rewrite !sendErrors_delta_added, !sendErrors_delta_removed.
  rewrite !delta_list by assumption.
  split; [|split; [|split; [|split; [|split]]]].
  - intros k Ha Hr.
    apply keysOf_notIn in Ha. apply keysOf_notIn in Hr. tauto.
  - intros e. apply notIn_In.
  - intros e. apply notIn_In.
  - intros k. apply keysOf_notIn.
  - intros k. apply keysOf_notIn.
  - intros k Ha Hb. rewrite !keysOf_notIn. tauto.
Qed.

Lemma delta_partition_witness :
  let B := [("a.ts", [e3]); ("b.ts", [])] in
  let addedAt :=
    getErrorsForFilePath_of (added (sendErrors_delta scenarioStore B))
                            "a.ts" in
  let removedAt :=
    getErrorsForFilePath_of (removed (sendErrors_delta scenarioStore B))
                            "a.ts" in
  (addedAt = [e3] /\ removedAt = [e1]) /\
  (forall k, In k (keysOf addedAt) -> ~ In k (keysOf removedAt)).
Proof.
  split; [split; reflexivity|].
  apply (delta_partition scenarioStore [("a.ts", [e3]); ("b.ts", [])] "a.ts").
  - apply wfb_wf. reflexivity.
  - apply wfb_wf. reflexivity.
Defined.

(** C2, as the code has it. A path that both snapshots have (or neither
    has) and whose identity keys are the same in both is a key of neither
    [added] nor [removed]. A path that only the new snapshot has is a key
    of [added] with its whole list, and a path that only the old snapshot
    has is a key of [removed] with its whole list; so a key of [added]
    maps to an empty list exactly when the old snapshot lacks the path and
    the new one holds an empty list for it, and dually for [removed]. For
    a path of both snapshots [added] holds the errors of the new list
    whose key the old list lacks, [removed] the errors of the old list
    whose key the new list lacks, and the path is no key when there is no
    such error. *)
Theorem delta_keys (old new : ErrorsByFilePath) (p : string) :
  wf old -> wf new ->
  let delta := sendErrors_delta old new in
  (has old p = has new p ->
   (forall k, In k (keysOf (getErrorsForFilePath_of old p)) <->
              In k (keysOf (getErrorsForFilePath_of new p))) ->
   get (added delta) p = None /\ get (removed delta) p = None) /\
  (get (added delta) p = Some [] <->
   get old p = None /\ get new p = Some []) /\
  (get (removed delta) p = Some [] <->
   get new p = None /\ get old p = Some []) /\
  (get old p = None -> get (added delta) p = get new p) /\
  (get new p = None -> get (removed delta) p = get old p) /\
  (forall lo ln,
     get old p = Some lo -> get new p = Some ln ->
     get (added delta) p =
       match notIn lo ln with [] => None | fl => Some fl end /\
     get (removed delta) p =
       match notIn ln lo with [] => None | fl => Some fl end).
Proof.
  intros Hold Hnew. cbv zeta.
  rewrite !sendErrors_delta_added, !sendErrors_delta_removed.
  rewrite !delta_get by assumption.
  unfold has, getErrorsForFilePath_of.
  destruct (get old p) as [lo|], (get new p) as [ln|].
  - split; [|split; [|split; [|split; [|split]]]].
    + intros _ Hk.
      assert (H1 : notIn lo ln = []).
      { apply notIn_nil_iff. intros e He. apply Hk.
        unfold keysOf. now apply in_map. }
      assert (H2 : notIn ln lo = []).
      { apply notIn_nil_iff. intros e He. apply Hk.
        unfold keysOf. now apply in_map. }
      now rewrite H1, H2.
    + destruct (notIn lo ln); split_all.
    + destruct (notIn ln lo); split_all.
    + discriminate.
    + discriminate.
    + intros lo' ln' [= <-] [= <-]. split; reflexivity.
  - split_all.
  - split_all.
  - split_all.
Qed.

Lemma delta_keys_witness :
  (get (added (sendErrors_delta scenarioStore scenarioStore)) "a.ts" = None /\
   get (removed (sendErrors_delta scenarioStore scenarioStore)) "a.ts"
   = None) /\
  get (added (sendErrors_delta [("b.ts", [e2])] scenarioStore)) "a.ts"
  = Some [e1] /\
  get (removed (sendErrors_delta scenarioStore [("b.ts", [e2])])) "a.ts"
  = Some [e1].
Proof.
  assert (H1 : wf scenarioStore) by (apply wfb_wf; reflexivity).
  assert (H2 : wf [("b.ts", [e2])]) by (apply wfb_wf; reflexivity).
  split; [|split].
  - apply (delta_keys scenarioStore scenarioStore "a.ts" H1 H1).
    + reflexivity.
    + intros k. split; intros H; exact H.
  - apply (delta_keys [("b.ts", [e2])] scenarioStore "a.ts" H2 H1).
    reflexivity.
  - apply (delta_keys scenarioStore [("b.ts", [e2])] "a.ts" H1 H2).
    reflexivity.
Defined.

(** C2 as stated fails: after [clearErrorsForFilePath] on a new cache the
    path has no identity key before or after, yet it is a key of [added],
    and that key maps to an empty list. *)
Lemma delta_keys_counterexample :
  let old : ErrorsByFilePath := empty in
  let new : ErrorsByFilePath := [("a.ts", [])] in
  wf old /\ wf new /\
  _errorsByFilePath (clearErrorsForFilePath "a.ts" newErrorsCache) = new /\
  lastErrorsByFilePath (clearErrorsForFilePath "a.ts" newErrorsCache) = old /\
  (forall k, In k (keysOf (getErrorsForFilePath_of old "a.ts")) <->
             In k (keysOf (getErrorsForFilePath_of new "a.ts"))) /\
  get (added (sendErrors_delta old new)) "a.ts" = Some [] /\
  errorsDelta (timerFires (clearErrorsForFilePath "a.ts" newErrorsCache)) =
  [ {| added := [("a.ts", [])]; removed := [] |} ].
Proof.
  cbv zeta. repeat split; try (apply wfb_wf; reflexivity); auto.
Qed.

(** * The two-file scenario *)

(** C4. With a.ts = [e1] and b.ts = [e2] stored and last sent, setting the
    errors of a.ts and b.ts to the single error e3 of a.ts leaves
    a.ts = [e3] and b.ts = [], and the next delta adds e3 to a.ts and
    removes e1 from a.ts and e2 from b.ts. The end positions and the
    payloads of the three errors are arbitrary. *)
Theorem scenario_two_files (t1 t2 t3 : EditorPosition) (pl1 pl2 pl3 : string) :
  let e1 := mkError "a.ts" 1 2 "msg1" t1 pl1 in
  let e2 := mkError "b.ts" 3 4 "msg2" t2 pl2 in
  let e3 := mkError "a.ts" 1 2 "msg1-changed" t3 pl3 in
  let c0 := cacheOf [("a.ts", [e1]); ("b.ts", [e2])] in
  let c1 := setErrorsByFilePaths ["a.ts"; "b.ts"] [e3] c0 in
  _errorsByFilePath c1 = [("a.ts", [e3]); ("b.ts", [])] /\
  sendErrorsPending c1 = true /\
  errorsDelta (timerFires c1) =
  [ {| added := [("a.ts", [e3])];
       removed := [("a.ts", [e1]); ("b.ts", [e2])] |} ].
Proof.
  cbv zeta.
  assert (Hneq : CodeError_eqb (mkError "a.ts" 1 2 "msg1" t1 pl1)
                               (mkError "a.ts" 1 2 "msg1-changed" t3 pl3)
                 = false).
  { unfold CodeError_eqb. simpl.
    change ("msg1" =? "msg1-changed")%string with false.
    now rewrite andb_false_r. }
  unfold setErrorsByFilePaths, setErrorsByFilePaths_loops.
  cbn. rewrite Hneq. cbn. auto.
Qed.

(** * The identity key *)

Lemma split_colon (s1 s2 r1 r2 : string) :
  noColon s1 -> noColon s2 ->
  (s1 ++ ":" ++ r1 = s2 ++ ":" ++ r2)%string ->
  s1 = s2 /\ r1 = r2.
Proof.
  revert s2. induction s1 as [|a s1 IH]; intros [|b s2]; simpl.
  - intros _ _ [= ->]. auto.
  - intros _ [Hb _] [= <-]. congruence.
  - intros [Ha _] _ [= ->]. congruence.
  - intros [_ H1] [_ H2] [= -> H].
    destruct (IH s2 H1 H2 H) as [-> ->]. auto.
Qed.

Lemma string_of_uint_noColon (d : Decimal.uint) :
  noColon (NilEmpty.string_of_uint d).
Proof.
  induction d; simpl; auto; split; auto; discriminate.
Qed.

Lemma numberToString_noColon (z : Z) : noColon (numberToString z).
Proof.
  unfold numberToString, NilZero.string_of_int, NilZero.string_of_uint.
  destruct (Z.to_int z) as [d|d]; destruct d; simpl;
    repeat split; try discriminate; apply string_of_uint_noColon.
Qed.

Lemma numberToString_inj (a b : Z) :
  numberToString a = numberToString b -> a = b.
Proof.
  unfold numberToString. intros H.
  assert (Hnn : forall z, Z.to_int z <> Decimal.Pos Decimal.Nil /\
                          Z.to_int z <> Decimal.Neg Decimal.Nil).
  { intros [|p|p]; simpl; split; try discriminate;
      intros [= Hp]; now apply Unsigned.to_uint_nonnil in Hp. }
  apply DecimalZ.to_int_inj.
  assert (Hs : Some (Z.to_int a) = Some (Z.to_int b)).
  { rewrite <- (NilZero.isi (Z.to_int a)) by apply Hnn.
    rewrite <- (NilZero.isi (Z.to_int b)) by apply Hnn.
    now rewrite H. }
  now injection Hs.
Qed.

(** The key is the triple (from.line, from.ch, message), no more and no
    less. *)
Lemma errorKey_inj (a b : CodeError) :
  errorKey a = errorKey b <->
  line (from a) = line (from b) /\ ch (from a) = ch (from b) /\
  message a = message b.
Proof.
  unfold errorKey. split.
  - intros H.
    apply split_colon in H as [Hl H]; try apply numberToString_noColon.
    apply split_colon in H as [Hc Hm]; try apply numberToString_noColon.
    apply numberToString_inj in Hl. apply numberToString_inj in Hc. auto.
  - intros [-> [-> ->]]. reflexivity.
Qed.

(** C5. Two errors that agree on from.line, from.ch and message have the
    same identity key, whatever their end positions and payloads (and
    only such errors have the same key); when the old snapshot has one of
    them and the new snapshot the other at the same path, the delta has
    neither of them, nor any error with their key, in added or removed
    for that path. *)
Theorem errorKey_identity (a b : CodeError) :
  (errorKey a = errorKey b <->
   line (from a) = line (from b) /\ ch (from a) = ch (from b) /\
   message a = message b) /\
  (line (from a) = line (from b) -> ch (from a) = ch (from b) ->
   message a = message b ->
   forall (A B : ErrorsByFilePath) (p : string),
     wf A -> wf B ->
     In a (getErrorsForFilePath_of A p) ->
     In b (getErrorsForFilePath_of B p) ->
     let delta := sendErrors_delta A B in
     ~ In b (getErrorsForFilePath_of (added delta) p) /\
     ~ In a (getErrorsForFilePath_of (removed delta) p) /\
     ~ In (errorKey a) (keysOf (getErrorsForFilePath_of (added delta) p)) /\
     ~ In (errorKey a)
          (keysOf (getErrorsForFilePath_of (removed delta) p))).
Proof.
  split; [apply errorKey_inj|].
  intros Hl Hc Hm A B p HA HB Ha Hb. cbv zeta.
  assert (Hk : errorKey a = errorKey b) by (apply errorKey_inj; auto).
  rewrite !sendErrors_delta_added, !sendErrors_delta_removed.
  rewrite !delta_list by assumption.
  rewrite !notIn_In, !keysOf_notIn.
  assert (Hka : In (errorKey a) (keysOf (getErrorsForFilePath_of A p)))
    by (unfold keysOf; now apply in_map).
  assert (Hkb : In (errorKey a) (keysOf (getErrorsForFilePath_of B p)))
    by (rewrite Hk; unfold keysOf; now apply in_map).
  rewrite <- Hk. tauto.
Qed.

Lemma errorKey_identity_witness :
  let a := mkError "a.ts" 1 2 "msg1" {| line := 1; ch := 3 |} "" in
  let b := mkError "a.ts" 1 2 "msg1" {| line := 7; ch := 0 |} "warning" in
  a <> b /\ errorKey a = errorKey b /\
  let delta := sendErrors_delta [("a.ts", [a])] [("a.ts", [b])] in
  ~ In b (getErrorsForFilePath_of (added delta) "a.ts") /\
  ~ In a (getErrorsForFilePath_of (removed delta) "a.ts") /\
  ~ In (errorKey a) (keysOf (getErrorsForFilePath_of (added delta) "a.ts")) /\
  ~ In (errorKey a)
       (keysOf (getErrorsForFilePath_of (removed delta) "a.ts")).
Proof.
  intros a b. split; [discriminate|]. split; [reflexivity|].
  apply (proj2 (errorKey_identity a b)); try reflexivity.
  - apply wfb_wf. reflexivity.
  - apply wfb_wf. reflexivity.
  - simpl. auto.
  - simpl. auto.
Defined.

(** * The limited view *)

Lemma slice_50 (errors : list CodeError) :
  (if 50 <? List.length errors then firstn 50 errors else errors) =
  firstn 50 errors.
Proof.
  destruct (Nat.ltb_spec 50 (List.length errors)); auto.
  symmetry. apply firstn_all2. lia.
Qed.

Lemma cappedCount_cons fp errors entries :
  cappedCount ((fp, errors) :: entries) =
  List.length (firstn 50 errors) + cappedCount entries.
Proof. reflexivity. Qed.

Lemma cappedCount_nil : cappedCount [] = 0.
Proof. reflexivity. Qed.

Lemma getErrorsLimited_loop_cons fp errors rest limitedCopy total :
  getErrorsLimited_loop ((fp, errors) :: rest) limitedCopy total =
  if 200 <? total + List.length (firstn 50 errors)
  then (set limitedCopy fp (firstn 50 errors),
        total + List.length (firstn 50 errors))
  else getErrorsLimited_loop rest (set limitedCopy fp (firstn 50 errors))
                             (total + List.length (firstn 50 errors)).
Proof.
  change (getErrorsLimited_loop ((fp, errors) :: rest) limitedCopy total)
    with (let errors' :=
            if 50 <? List.length errors then firstn 50 errors else errors in
          if 200 <? total + List.length errors'
          then (set limitedCopy fp errors', total + List.length errors')
          else getErrorsLimited_loop rest (set limitedCopy fp errors')
                                     (total + List.length errors')).
  cbv zeta. now rewrite slice_50.
Qed.

Lemma getErrorsLimited_loop_spec (entries limitedCopy : ErrorsByFilePath)
    (total : nat) :
  NoDup (keys limitedCopy ++ keys entries) ->
  exists n,
    n <= List.length entries /\
    getErrorsLimited_loop entries limitedCopy total =
      (limitedCopy ++ map capEntry (firstn n entries),
       total + cappedCount (firstn n entries)) /\
    (forall m, 0 < m < n -> total + cappedCount (firstn m entries) <= 200) /\
    (n < List.length entries ->
     200 < total + cappedCount (firstn n entries)) /\
    (entries <> [] -> 0 < n).
Proof.
  revert limitedCopy total.
  induction entries as [|[fp errors] rest IH]; intros lc total Hnd.
  - exists 0. simpl. rewrite app_nil_r, cappedCount_nil, Nat.add_0_r.
    repeat split; auto; try lia. congruence.
  - rewrite getErrorsLimited_loop_cons.
    assert (Hfresh : get lc fp = None).
    { apply get_None_keys. intros Hin.
      apply NoDup_remove_2 in Hnd. apply Hnd.
      apply in_or_app. now left. }
    rewrite (set_fresh lc fp _ Hfresh).
    destruct (Nat.ltb_spec 200 (total + List.length (firstn 50 errors)))
      as [Hgt|Hle].
    + exists 1. rewrite firstn_cons, firstn_0, cappedCount_cons.
      rewrite cappedCount_nil, Nat.add_0_r.
      split; [simpl List.length; lia|]. split; [reflexivity|].
      split; [intros m Hm; lia|]. split; [auto|intros _; lia].
    + destruct (IH (lc ++ [(fp, firstn 50 errors)])
                   (total + List.length (firstn 50 errors)))
        as [n [Hn [Heq [Hbefore [Hafter Hpos]]]]].
      { unfold keys in *. rewrite map_app, <- app_assoc. exact Hnd. }
      exists (S n). rewrite Heq, firstn_cons, cappedCount_cons.
      rewrite <- app_assoc, Nat.add_assoc.
      split; [simpl List.length; lia|]. split; [reflexivity|].
      split; [|split; [|intros _; lia]].
      * intros [|m] Hm; [lia|].
        rewrite firstn_cons, cappedCount_cons.
        destruct m as [|m].
        -- rewrite firstn_0, cappedCount_nil. lia.
        -- specialize (Hbefore (S m)). lia.
      * intros Hlt. simpl List.length in Hlt.
        apply Hafter. lia.
Qed.

Lemma fold_left_add (l : list nat) (a : nat) :
  fold_left (fun acc i => acc + i) l a = a + list_sum l.
Proof.
  revert a. induction l as [|x l IH]; intros a; simpl; [lia|].
  rewrite IH. lia.
Qed.

Lemma cappedCount_le (entries : ErrorsByFilePath) (n : nat) :
  cappedCount (firstn n entries) <= errorCount entries.
Proof.
  revert n.
  induction entries as [|[fp errors] entries IH]; intros [|n];
    rewrite ?firstn_nil, ?firstn_0, ?cappedCount_nil; try lia.
  rewrite firstn_cons, cappedCount_cons.
  change (errorCount ((fp, errors) :: entries))
    with (List.length errors + errorCount entries).
  specialize (IH n).
  assert (List.length (firstn 50 errors) <= List.length errors)
    by (rewrite length_firstn; lia).
  lia.
Qed.

Lemma get_map_capEntry (entries : ErrorsByFilePath) (p : string) :
  get (map capEntry entries) p =
  option_map (firstn 50) (get entries p).
Proof.
  induction entries as [|[k v] entries IH]; simpl; auto.
  destruct (String.eqb k p); auto.
Qed.

Lemma get_map_capEntry_Some (entries : ErrorsByFilePath) (p : string)
    (l : list CodeError) :
  get (map capEntry entries) p = Some l ->
  exists l', get entries p = Some l' /\ l = firstn 50 l'.
Proof.
  rewrite get_map_capEntry.
  destruct (get entries p) as [l'|]; cbn [option_map]; [|discriminate].
  intros H. exists l'. split; auto. congruence.
Qed.

Lemma NoDup_app_disjoint {A : Type} (l1 l2 : list A) (a : A) :
  NoDup (l1 ++ l2) -> In a l1 -> ~ In a l2.
Proof.
  induction l1 as [|x l1 IH]; simpl; [tauto|].
  intros Hnd [->|Hin] H2.
  - apply NoDup_cons_iff in Hnd as [Hx _]. apply Hx.
    apply in_or_app. now right.
  - apply NoDup_cons_iff in Hnd as [_ Hnd]. now apply (IH Hnd Hin).
Qed.

Lemma get_firstn_Some (entries : ErrorsByFilePath) (n : nat) (p : string)
    (l : list CodeError) :
  get (firstn n entries) p = Some l -> get entries p = Some l.
Proof.
  revert n. induction entries as [|[k v] entries IH]; intros [|n]; simpl;
    try discriminate.
  destruct (String.eqb k p); eauto.
Qed.

Lemma getErrorsLimited_of_spec (store : ErrorsByFilePath) :
  wf store ->
  exists n,
    n <= List.length store /\
    errorsByFilePath (getErrorsLimited_of store) =
      map capEntry (firstn n store) /\
    syncCount (getErrorsLimited_of store) = cappedCount (firstn n store) /\
    (forall m, m < n -> cappedCount (firstn m store) <= 200) /\
    (n < List.length store -> 200 < cappedCount (firstn n store)) /\
    (store <> [] -> 0 < n).
Proof.
  intros Hwf.
  destruct (getErrorsLimited_loop_spec store empty 0)
    as [n [Hn [Heq [Hbefore [Hafter Hpos]]]]]; [exact Hwf|].
  exists n. unfold getErrorsLimited_of. rewrite Heq.
  cbn [errorsByFilePath syncCount app Nat.add] in *.
  repeat split; auto.
  intros [|m] Hm.
  - rewrite firstn_0, cappedCount_nil. lia.
  - apply (Hbefore (S m)). lia.
Qed.

Lemma keys_map_capEntry (entries : ErrorsByFilePath) :
  keys (map capEntry entries) = keys entries.
Proof. unfold keys. rewrite map_map. reflexivity. Qed.

(** C6. The limited view holds the first n files of the store, in the
    store's order, each with its first 50 errors: the running total of
    included errors is at most 200 before each included file, it exceeds
    200 when files are left out, the files after the n-th are absent,
    and no file has more than 50 errors. *)
Theorem getErrorsLimited_prefix (c : ErrorsCache) :
  wf (_errorsByFilePath c) ->
  let store := _errorsByFilePath c in
  let limited := errorsByFilePath (getErrorsLimited c) in
  exists n,
    n <= List.length store /\
    limited = map capEntry (firstn n store) /\
    keys limited = firstn n (keys store) /\
    (forall m, m < n -> cappedCount (firstn m store) <= 200) /\
    (n < List.length store -> 200 < cappedCount (firstn n store)) /\
    (store <> [] -> 0 < n) /\
    (forall p l, get limited p = Some l ->
                 List.length l <= 50 /\
                 l = firstn 50 (getErrorsForFilePath p c)) /\
    (forall p, In p (skipn n (keys store)) -> get limited p = None).
Proof.
  intros Hwf. cbv zeta. unfold getErrorsLimited, getErrorsForFilePath.
  destruct (getErrorsLimited_of_spec _ Hwf)
    as [n [Hn [Heq [_ [Hbefore [Hafter Hpos]]]]]].
  exists n. rewrite Heq.
  assert (Hkeys : keys (map capEntry (firstn n (_errorsByFilePath c))) =
                  firstn n (keys (_errorsByFilePath c))).
  { rewrite keys_map_capEntry. unfold keys. now rewrite firstn_map. }
  repeat split; auto.
  - apply get_map_capEntry_Some in H as [l' [_ ->]].
    apply firstn_le_length.
  - apply get_map_capEntry_Some in H as [l' [G ->]].
    apply get_firstn_Some in G.
    unfold getErrorsForFilePath_of. now rewrite G.
  - intros p Hp. apply get_None_keys. rewrite Hkeys. intros Hin.
    unfold wf in Hwf.
    rewrite <- (firstn_skipn n (keys (_errorsByFilePath c))) in Hwf.
    exact (NoDup_app_disjoint _ _ p Hwf Hin Hp).
Qed.

Lemma getErrorsLimited_prefix_witness :
  let store := sixFiles in
  let limited := errorsByFilePath (getErrorsLimited (cacheOf sixFiles)) in
  keys limited = ["f1"; "f2"; "f3"; "f4"; "f5"] /\
  exists n,
    n <= List.length store /\
    limited = map capEntry (firstn n store) /\
    keys limited = firstn n (keys store) /\
    (forall m, m < n -> cappedCount (firstn m store) <= 200) /\
    (n < List.length store -> 200 < cappedCount (firstn n store)) /\
    (store <> [] -> 0 < n) /\
    (forall p l, get limited p = Some l ->
                 List.length l <= 50 /\
                 l = firstn 50 (getErrorsForFilePath p (cacheOf sixFiles))) /\
    (forall p, In p (skipn n (keys store)) -> get limited p = None).
Proof.
  split; [reflexivity|].
  apply (getErrorsLimited_prefix (cacheOf sixFiles)).
  apply wfb_wf. reflexivity.
Defined.

Lemma errorCount_keys (store : ErrorsByFilePath) :
  wf store ->
  errorCount store =
  list_sum (map (fun p => List.length (getErrorsForFilePath_of store p))
                (keys store)).
Proof.
  intros Hwf. unfold errorCount, keys. rewrite map_map. f_equal.
  apply map_ext_in. intros [k v] Hin. simpl.
  unfold getErrorsForFilePath_of. now rewrite (In_get _ _ _ Hwf Hin).
Qed.

(** C7. In the limited view totalCount is the number of errors of all the
    files of the store, syncCount is the number of errors the view holds
    and is at most totalCount, and tooMany says that the two differ. *)
Theorem getErrorsLimited_counts (c : ErrorsCache) :
  wf (_errorsByFilePath c) ->
  let limited := getErrorsLimited c in
  totalCount limited =
    list_sum (map (fun p => List.length (getErrorsForFilePath p c))
                  (keys (_errorsByFilePath c))) /\
  syncCount limited = errorCount (errorsByFilePath limited) /\
  syncCount limited <= totalCount limited /\
  (tooMany limited = true <-> syncCount limited <> totalCount limited) /\
  (tooMany limited = false <-> syncCount limited = totalCount limited).
Proof.
  intros Hwf. cbv zeta. unfold getErrorsLimited, getErrorsForFilePath.
  destruct (getErrorsLimited_of_spec _ Hwf) as [n [_ [Heq [Hsync _]]]].
  assert (Htotal : totalCount (getErrorsLimited_of (_errorsByFilePath c)) =
                   errorCount (_errorsByFilePath c)).
  { unfold getErrorsLimited_of.
    destruct (getErrorsLimited_loop _ _ _). simpl.
    now rewrite fold_left_add. }
  assert (Htoo : tooMany (getErrorsLimited_of (_errorsByFilePath c)) =
                 negb (syncCount (getErrorsLimited_of (_errorsByFilePath c))
                       =? totalCount
                            (getErrorsLimited_of (_errorsByFilePath c)))).
  { unfold getErrorsLimited_of.
    destruct (getErrorsLimited_loop _ _ _). reflexivity. }
  rewrite Htoo, Htotal, Hsync, Heq.
  rewrite <- errorCount_keys by assumption.
  split; [reflexivity|]. split.
  { unfold cappedCount, errorCount. now rewrite map_map. }
  split; [apply cappedCount_le|].
  rewrite negb_true_iff, negb_false_iff, Nat.eqb_neq, Nat.eqb_eq. tauto.
Qed.

Lemma getErrorsLimited_counts_witness :
  let limited := getErrorsLimited (cacheOf sixFiles) in
  (totalCount limited = 250 /\ syncCount limited = 225 /\
   tooMany limited = true) /\
  syncCount limited <= totalCount limited /\
  (tooMany limited = true <-> syncCount limited <> totalCount limited).
Proof.
  assert (Hwf : wf (_errorsByFilePath (cacheOf sixFiles)))
    by (apply wfb_wf; reflexivity).
  split; [repeat split|].
  split.
  - apply (getErrorsLimited_counts (cacheOf sixFiles) Hwf).
  - apply (getErrorsLimited_counts (cacheOf sixFiles) Hwf).
Defined.

(** * Setting the errors of file paths *)

Lemma EditorPosition_eqb_eq (p q : EditorPosition) :
  EditorPosition_eqb p q = true <-> p = q.
Proof.
  destruct p as [l1 c1], q as [l2 c2]. unfold EditorPosition_eqb. simpl.
  rewrite andb_true_iff, !Z.eqb_eq. split.
  - intros [-> ->]. reflexivity.
  - intros [= -> ->]. auto.
Qed.

Lemma CodeError_eqb_eq (a b : CodeError) : CodeError_eqb a b = true <-> a = b.
Proof.
  destruct a as [f1 p1 q1 m1 x1], b as [f2 p2 q2 m2 x2].
  unfold CodeError_eqb. simpl.
  rewrite !andb_true_iff, !String.eqb_eq, !EditorPosition_eqb_eq. split.
  - intros [[[[-> ->] ->] ->] ->]. reflexivity.
  - intros [= -> -> -> -> ->]. auto.
Qed.

Lemma array_eqb_eq (l1 l2 : list CodeError) :
  array_eqb l1 l2 = true <-> l1 = l2.
Proof.
  revert l2. induction l1 as [|a l1 IH]; intros [|b l2]; simpl;
    try (split; [discriminate|congruence]); [tauto|].
  rewrite andb_true_iff, CodeError_eqb_eq, IH. split.
  - intros [-> ->]. reflexivity.
  - intros [= -> ->]. auto.
Qed.

Lemma equal_same (store : ErrorsByFilePath) (p : string)
    (errors : list CodeError) :
  get store p = Some errors -> equal (get store p) errors = true.
Proof. intros ->. simpl. now apply array_eqb_eq. Qed.

(** The first loop changes nothing when every list of the batch is the
    stored one. *)
Lemma setErrors_found_same (entries store : ErrorsByFilePath)
    (somethingNew : bool) :
  (forall p l, In (p, l) entries -> get store p = Some l) ->
  fold_left setErrors_found entries (store, somethingNew) =
  (store, somethingNew).
Proof.
  induction entries as [|[p l] entries IH]; intros H; simpl; auto.
  rewrite equal_same by (apply H; now left). simpl.
  apply IH. intros q l' Hin. apply H. now right.
Qed.

Lemma setErrors_notFound_empty (errorsByFile store : ErrorsByFilePath)
    (somethingNew : bool) (p : string) :
  getErrorsForFilePath_of store p = [] ->
  setErrors_notFound errorsByFile (store, somethingNew) p =
  (store, somethingNew).
Proof.
  unfold getErrorsForFilePath_of, setErrors_notFound.
  destruct (get store p) as [l|]; [intros ->|intros _]; simpl;
    now rewrite andb_false_r.
Qed.

Lemma setErrors_notFound_found (errorsByFile store : ErrorsByFilePath)
    (somethingNew : bool) (p : string) :
  has errorsByFile p = true ->
  setErrors_notFound errorsByFile (store, somethingNew) p =
  (store, somethingNew).
Proof. unfold setErrors_notFound. now intros ->. Qed.

(** The second loop changes nothing when every listed path is in the
    batch or has no stored error. *)
Lemma setErrors_notFound_same (errorsByFile store : ErrorsByFilePath)
    (filePaths : list string) (somethingNew : bool) :
  (forall p, In p filePaths ->
             has errorsByFile p = true \/
             getErrorsForFilePath_of store p = []) ->
  fold_left (setErrors_notFound errorsByFile) filePaths
            (store, somethingNew) = (store, somethingNew).
Proof.
  induction filePaths as [|p filePaths IH]; intros H; cbn [fold_left]; auto.
  destruct (H p (or_introl eq_refl)) as [Hp|Hp].
  - rewrite setErrors_notFound_found by assumption.
    apply IH. intros q Hq. apply H. now right.
  - rewrite setErrors_notFound_empty by assumption.
    apply IH. intros q Hq. apply H. now right.
Qed.

Lemma with_errorsByFilePath_same (c : ErrorsCache) :
  with_errorsByFilePath c (_errorsByFilePath c) = c.
Proof. now destruct c. Qed.

Lemma setErrorsByFilePaths_store (filePaths : list string)
    (errors : list CodeError) (c : ErrorsCache) :
  _errorsByFilePath (setErrorsByFilePaths filePaths errors c) =
  fst (setErrorsByFilePaths_loops filePaths errors (_errorsByFilePath c)).
Proof.
  unfold setErrorsByFilePaths.
  destruct (setErrorsByFilePaths_loops _ _ _) as [store []]; reflexivity.
Qed.

Lemma setErrorsByFilePaths_same (filePaths : list string)
    (errors : list CodeError) (c : ErrorsCache) :
  setErrorsByFilePaths_loops filePaths errors (_errorsByFilePath c) =
  (_errorsByFilePath c, false) ->
  setErrorsByFilePaths filePaths errors c = c.
Proof.
  intros H. unfold setErrorsByFilePaths. rewrite H.
  apply with_errorsByFilePath_same.
Qed.

(** C8. When the batch gives every path it touches the list the store
    already holds for it, and every listed path without errors in the
    batch has no stored error, the call changes nothing: somethingNew
    stays false, the cache is the same, sendErrors is not called, and
    nothing is emitted. *)
Theorem setErrorsByFilePaths_noop (filePaths : list string)
    (errors : list CodeError) (c : ErrorsCache) :
  (forall p, In p (map filePath errors) ->
             get (_errorsByFilePath c) p =
             Some (filter (fun e => String.eqb (filePath e) p) errors)) ->
  (forall p, In p filePaths -> ~ In p (map filePath errors) ->
             getErrorsForFilePath p c = []) ->
  setErrorsByFilePaths_loops filePaths errors (_errorsByFilePath c) =
    (_errorsByFilePath c, false) /\
  setErrorsByFilePaths filePaths errors c = c /\
  (sendErrorsPending c = false ->
   timerFires (setErrorsByFilePaths filePaths errors c) = c).
Proof.
  intros Hsame Hclean.
  assert (Hloops :
            setErrorsByFilePaths_loops filePaths errors (_errorsByFilePath c)
            = (_errorsByFilePath c, false)).
  { unfold setErrorsByFilePaths_loops.
    rewrite setErrors_found_same.
    - apply setErrors_notFound_same. intros p Hp.
      destruct (in_dec string_dec p (map filePath errors)) as [Hin|Hn].
      + left. apply has_get_Some.
        apply createMapByKey_keys in Hin.
        destruct (get (createMapByKey errors filePath) p) eqn:G; eauto.
        apply get_None_keys in G. contradiction.
      + right. now apply Hclean.
    - intros p l Hin.
      pose proof (createMapByKey_wf filePath errors) as Hwf.
      pose proof (In_get _ _ _ Hwf Hin) as G.
      assert (Hp : In p (map filePath errors)).
      { apply createMapByKey_keys. eapply get_Some_keys; eauto. }
      rewrite (Hsame p Hp). rewrite createMapByKey_get in G.
      destruct (filter _ errors); congruence. }
  split; [exact Hloops|].
  rewrite (setErrorsByFilePaths_same _ _ _ Hloops).
  split; [reflexivity|].
  intros Hp. unfold timerFires. now rewrite Hp.
Qed.

Lemma setErrorsByFilePaths_noop_witness :
  setErrorsByFilePaths_loops ["a.ts"; "b.ts"; "c.ts"] [e1; e2]
                             (_errorsByFilePath scenarioCache) =
    (_errorsByFilePath scenarioCache, false) /\
  setErrorsByFilePaths ["a.ts"; "b.ts"; "c.ts"] [e1; e2] scenarioCache =
    scenarioCache /\
  (sendErrorsPending scenarioCache = false ->
   timerFires (setErrorsByFilePaths ["a.ts"; "b.ts"; "c.ts"] [e1; e2]
                                    scenarioCache) = scenarioCache).
Proof.
  apply (setErrorsByFilePaths_noop ["a.ts"; "b.ts"; "c.ts"] [e1; e2]
                                   scenarioCache).
  - intros p [<-|[<-|[]]]; reflexivity.
  - intros p [<-|[<-|[<-|[]]]] Hn; try reflexivity;
      exfalso; apply Hn; simpl; auto.
Defined.

(** The first loop writes only at the paths of the batch. *)
Lemma setErrors_found_other (entries : ErrorsByFilePath)
    (st : ErrorsByFilePath * bool) (p : string) :
  ~ In p (keys entries) ->
  get (fst (fold_left setErrors_found entries st)) p = get (fst st) p.
Proof.
  revert st. induction entries as [|[q l] entries IH]; intros [store sn] Hn;
    cbn [fold_left]; auto.
  rewrite IH by (intros Hin; apply Hn; now right).
  assert (Hqp : q <> p) by (intros ->; apply Hn; now left).
  unfold setErrors_found.
  destruct (negb (equal (get store q) l)); cbn [fst]; auto.
  now apply get_set_ne.
Qed.

(** The second loop leaves alone a path that has no stored error. *)
Lemma setErrors_notFound_keeps (errorsByFile : ErrorsByFilePath)
    (filePaths : list string) (st : ErrorsByFilePath * bool) (p : string) :
  getErrorsForFilePath_of (fst st) p = [] ->
  get (fst (fold_left (setErrors_notFound errorsByFile) filePaths st)) p =
  get (fst st) p.
Proof.
  revert st. induction filePaths as [|q filePaths IH]; intros [store sn] Hp;
    cbn [fold_left]; auto.
  cbn [fst] in Hp.
  assert (Hstep : get (fst (setErrors_notFound errorsByFile (store, sn) q)) p
                  = get store p).
  { destruct (string_dec q p) as [->|Hqp].
    - now rewrite setErrors_notFound_empty.
    - unfold setErrors_notFound.
      destruct (negb (has errorsByFile q) && _)%bool; cbn [fst]; auto.
      now apply get_set_ne. }
  rewrite IH.
  - exact Hstep.
  - unfold getErrorsForFilePath_of in *. now rewrite Hstep.
Qed.

(** C10. A path without errors in the batch that the store does not have
    is still not in the store after the call, and one whose stored list
    is empty keeps its empty list; the round of the second loop for such
    a path changes neither the store nor somethingNew, and a call whose
    batch is empty and whose paths are all of this kind changes nothing
    and does not call sendErrors. *)
Theorem setErrorsByFilePaths_absent_stays (filePaths : list string)
    (errors : list CodeError) (c : ErrorsCache) (p : string) :
  ~ In p (map filePath errors) ->
  let c' := setErrorsByFilePaths filePaths errors c in
  (get (_errorsByFilePath c) p = None ->
   get (_errorsByFilePath c') p = None) /\
  (get (_errorsByFilePath c) p = Some [] ->
   get (_errorsByFilePath c') p = Some []) /\
  (forall store somethingNew,
     getErrorsForFilePath_of store p = [] ->
     setErrors_notFound (createMapByKey errors filePath)
                        (store, somethingNew) p = (store, somethingNew)) /\
  (errors = [] ->
   (forall q, In q filePaths -> getErrorsForFilePath q c = []) ->
   setErrorsByFilePaths_loops filePaths errors (_errorsByFilePath c) =
     (_errorsByFilePath c, false) /\ c' = c).
Proof.
  intros Hp. cbv zeta.
  assert (Hkeep : getErrorsForFilePath_of (_errorsByFilePath c) p = [] ->
                  get (_errorsByFilePath
                         (setErrorsByFilePaths filePaths errors c)) p =
                  get (_errorsByFilePath c) p).
  { intros Hempty. rewrite setErrorsByFilePaths_store.
    unfold setErrorsByFilePaths_loops.
    assert (H1 : get (fst (fold_left setErrors_found
                                     (createMapByKey errors filePath)
                                     (_errorsByFilePath c, false))) p =
                 get (_errorsByFilePath c) p).
    { apply (setErrors_found_other _ (_errorsByFilePath c, false)).
      now rewrite createMapByKey_keys. }
    rewrite setErrors_notFound_keeps; auto.
    unfold getErrorsForFilePath_of in *. now rewrite H1. }
  split; [|split; [|split]].
  - intros H. rewrite Hkeep; auto.
    unfold getErrorsForFilePath_of. now rewrite H.
  - intros H. rewrite Hkeep; auto.
    unfold getErrorsForFilePath_of. now rewrite H.
  - intros store sn. apply setErrors_notFound_empty.
  - intros -> Hclean.
    assert (Hloops : setErrorsByFilePaths_loops filePaths []
                       (_errorsByFilePath c) = (_errorsByFilePath c, false)).
    { unfold setErrorsByFilePaths_loops. cbn [createMapByKey fold_left].
      apply setErrors_notFound_same. intros q Hq. right. now apply Hclean. }
    split; auto. now apply setErrorsByFilePaths_same.
Qed.

Lemma setErrorsByFilePaths_absent_stays_witness :
  let c' := setErrorsByFilePaths ["a.ts"; "new.ts"] [e3] scenarioCache in
  get (_errorsByFilePath scenarioCache) "new.ts" = None /\
  get (_errorsByFilePath c') "new.ts" = None /\
  sendErrorsPending
    (setErrorsByFilePaths ["new.ts"] [] newErrorsCache) = false.
Proof.
  cbv zeta. split; [reflexivity|]. split.
  - apply (setErrorsByFilePaths_absent_stays
             ["a.ts"; "new.ts"] [e3] scenarioCache "new.ts").
    + simpl. intros [H|[]]. discriminate H.
    + reflexivity.
  - reflexivity.
Defined.

(** * Removals that match nothing *)

Lemma filter_keyIn_none (r l : list CodeError) :
  (forall e, In e r -> ~ In (errorKey e) (keysOf l)) ->
  filter (fun e => negb (keyIn r (errorKey e))) l = l.
Proof.
  intros H. rewrite <- (filter_true l) at 2.
  apply filter_ext_in. intros e He.
  apply negb_true_iff, keyIn_false. unfold keysOf. intros Hin.
  apply in_map_iff in Hin as [e' [Hk He']].
  apply (H e' He'). rewrite Hk. unfold keysOf. now apply in_map.
Qed.

Lemma filter_keyIn_occurring (r l : list CodeError) :
  filter (fun e => negb (keyIn r (errorKey e))) l =
  filter (fun e =>
            negb (keyIn (filter (fun x => keyIn l (errorKey x)) r)
                        (errorKey e))) l.
Proof.
  apply filter_ext_in. intros e He. f_equal.
  destruct (keyIn r (errorKey e)) eqn:E.
  - symmetry. apply keyIn_spec. apply keyIn_spec in E.
    unfold keysOf in *. apply in_map_iff in E as [x [Hk Hx]].
    apply in_map_iff. exists x. split; auto.
    apply filter_In. split; auto.
    apply keyIn_spec. rewrite Hk. unfold keysOf. now apply in_map.
  - symmetry. apply keyIn_false. apply keyIn_false in E.
    intros Hin. apply E. unfold keysOf in *.
    apply in_map_iff in Hin as [x [Hk Hx]].
    apply filter_In in Hx as [Hx _].
    apply in_map_iff. eauto.
Qed.

(** C9. [applyDelta] gives a store for every target and delta. Let
    [current] be the target's store when the removals start. For a path
    of [removed], the resulting list is [current]'s list without the
    errors that have a removed key; removed errors whose key does not
    occur in that list change nothing, so when none occurs the list is
    as it was; a path of [removed] has a list afterwards even when the
    target had none; paths that [removed] does not have are as in
    [current]. *)
Theorem applyDelta_removed_unknown_key (delta : ErrorCacheDelta)
    (c : ErrorsCache) (p : string) :
  wf (removed delta) ->
  let current :=
    fold_left applyDelta_added (added delta) (_errorsByFilePath c) in
  let c' := applyDelta delta c in
  let removedAt := getErrorsForFilePath_of (removed delta) p in
  let occurring :=
    filter (fun x => keyIn (getErrorsForFilePath_of current p) (errorKey x))
           removedAt in
  getErrorsForFilePath p c' =
    filter (fun e => negb (keyIn occurring (errorKey e)))
           (getErrorsForFilePath_of current p) /\
  ((forall e, In e removedAt ->
              ~ In (errorKey e) (keysOf (getErrorsForFilePath_of current p)))
   -> getErrorsForFilePath p c' = getErrorsForFilePath_of current p) /\
  (In p (keys (removed delta)) -> get (_errorsByFilePath c') p <> None) /\
  (get (removed delta) p = None ->
   get (_errorsByFilePath c') p = get current p).
Proof.
  intros Hwf. cbv zeta.
  unfold getErrorsForFilePath.
  change (_errorsByFilePath (applyDelta delta c))
    with (fold_left applyDelta_removed (removed delta)
            (fold_left applyDelta_added (added delta) (_errorsByFilePath c))).
  set (current := fold_left applyDelta_added (added delta)
                            (_errorsByFilePath c)).
  pose proof (applyDelta_removed_get (removed delta) current p Hwf) as Hget.
  assert (Hlist :
            getErrorsForFilePath_of
              (fold_left applyDelta_removed (removed delta) current) p =
            filter (fun e =>
                      negb (keyIn (getErrorsForFilePath_of (removed delta) p)
                                  (errorKey e)))
                   (getErrorsForFilePath_of current p)).
  { unfold getErrorsForFilePath_of at 1. rewrite Hget.
    unfold getErrorsForFilePath_of at 2.
    destruct (get (removed delta) p) as [r|]; auto.
    fold (getErrorsForFilePath_of current p).
    symmetry. apply (notIn_nil_l _). }
  split; [|split; [|split]].
  - rewrite Hlist. apply filter_keyIn_occurring.
  - intros Hnone. rewrite Hlist. now apply filter_keyIn_none.
  - intros Hin. rewrite Hget.
    destruct (get (removed delta) p) eqn:G; [discriminate|].
    apply get_None_keys in G. contradiction.
  - intros Hnone. now rewrite Hget, Hnone.
Qed.

Lemma applyDelta_removed_unknown_key_witness :
  let delta :=
    {| added := empty; removed := [("a.ts", [e3]); ("z.ts", [e2])] |} in
  let c' := applyDelta delta scenarioCache in
  getErrorsForFilePath "a.ts" c' = [e1] /\
  getErrorsForFilePath "z.ts" c' = [] /\
  get (_errorsByFilePath c') "b.ts" = Some [e2].
Proof.
  cbv zeta.
  assert (Hwf : wf [("a.ts", [e3]); ("z.ts", [e2])])
    by (apply wfb_wf; reflexivity).
  split; [|split].
  - apply (applyDelta_removed_unknown_key
             {| added := empty; removed := [("a.ts", [e3]); ("z.ts", [e2])] |}
             scenarioCache "a.ts" Hwf).
    simpl. intros e [<-|[]] [H|[]]. discriminate H.
  - apply (applyDelta_removed_unknown_key
             {| added := empty; removed := [("a.ts", [e3]); ("z.ts", [e2])] |}
             scenarioCache "z.ts" Hwf).
    simpl. intros e _ [].
  - apply (applyDelta_removed_unknown_key
             {| added := empty; removed := [("a.ts", [e3]); ("z.ts", [e2])] |}
             scenarioCache "b.ts" Hwf).
    reflexivity.
Defined.

(** * Further properties of the cache *)

(** ** What setErrorsByFilePaths leaves in the store *)

Lemma createMapByKey_get_batch (errors : list CodeError) (p : string) :
  get (createMapByKey errors filePath) p =
  match batchAt errors p with [] => None | l => Some l end.
Proof. apply createMapByKey_get. Qed.

Lemma batchAt_nil_iff (errors : list CodeError) (p : string) :
  batchAt errors p = [] <-> ~ In p (map filePath errors).
Proof.
  unfold batchAt. split.
  - intros H Hin. apply in_map_iff in Hin as [e [<- He]].
    assert (Hf : In e (filter (fun x => String.eqb (filePath x) (filePath e))
                              errors))
      by (apply filter_In; split; auto; apply String.eqb_refl).
    rewrite H in Hf. destruct Hf.
  - intros Hn. destruct (filter _ errors) as [|e l] eqn:E; auto.
    assert (Hf : In e (filter (fun x => String.eqb (filePath x) p) errors))
      by (rewrite E; now left).
    apply filter_In in Hf as [He Hp]. apply String.eqb_eq in Hp.
    elim Hn. subst p. now apply in_map.
Qed.

Lemma equal_true_iff (o : option (list CodeError)) (l : list CodeError) :
  equal o l = true <-> o = Some l.
Proof.
  destruct o as [l'|]; simpl.
  - rewrite array_eqb_eq. split; congruence.
  - split; discriminate.
Qed.

(** After the first loop every path of the batch holds the list of the
    batch, and somethingNew tells whether one of them held another. *)
Lemma setErrors_found_spec (entries : ErrorsByFilePath)
    (st : ErrorsByFilePath * bool) :
  wf entries ->
  (forall p,
     get (fst (fold_left setErrors_found entries st)) p =
     match get entries p with
     | Some l => Some l
     | None => get (fst st) p
     end) /\
  (snd (fold_left setErrors_found entries st) = true <->
   snd st = true \/
   exists q l, In (q, l) entries /\ get (fst st) q <> Some l).
Proof.
  unfold wf. revert st.
  induction entries as [|[q l] entries IH]; intros [store sn] Hnd;
    cbn [fold_left].
  - split; [reflexivity|]. cbn [snd]. split; [tauto|].
    intros [H|[q [l [[] _]]]]; exact H.
  - inversion Hnd as [|? ? Hq Hnd']; subst.
    apply get_None_keys in Hq.
    destruct (IH (setErrors_found (store, sn) (q, l)) Hnd') as [Hget Hflag].
    assert (Hstep_q : get (fst (setErrors_found (store, sn) (q, l))) q
                      = Some l).
    { unfold setErrors_found.
      destruct (equal (get store q) l) eqn:E; cbn [negb fst].
      - now apply equal_true_iff.
      - apply get_set_eq. }
    assert (Hstep_o : forall p, q <> p ->
                get (fst (setErrors_found (store, sn) (q, l))) p
                = get store p).
    { intros p Hqp. unfold setErrors_found.
      destruct (equal (get store q) l); cbn [negb fst]; auto.
      now apply get_set_ne. }
    assert (Hstep_f : snd (setErrors_found (store, sn) (q, l)) = true <->
                      sn = true \/ get store q <> Some l).
    { unfold setErrors_found.
      destruct (equal (get store q) l) eqn:E; cbn [negb snd].
      - apply equal_true_iff in E. tauto.
      - split; [intros _; right|auto].
        intros H. apply equal_true_iff in H. congruence. }
    split.
    + intros p. rewrite Hget. cbn [get].
      destruct (String.eqb_spec q p) as [<-|Hqp].
      * now rewrite Hq.
      * destruct (get entries p); auto.
    + rewrite Hflag, Hstep_f. cbn [fst snd]. split.
      * intros [[H|H]|[q' [l' [Hin Hne]]]]; auto.
        -- right. exists q, l. split; [now left|exact H].
        -- right. exists q', l'. split; [now right|].
           rewrite <- Hstep_o; auto.
           intros ->. apply get_None_keys in Hq. apply Hq.
           apply (in_map fst) in Hin. exact Hin.
      * intros [H|[q' [l' [[[= <- <-]|Hin] Hne]]]]; auto.
        right. exists q', l'. split; auto.
        rewrite Hstep_o; auto.
        intros ->. apply get_None_keys in Hq. apply Hq.
        apply (in_map fst) in Hin. exact Hin.
Qed.

Lemma setErrors_notFound_eq (errorsByFile store : ErrorsByFilePath)
    (somethingNew : bool) (q : string) :
  setErrors_notFound errorsByFile (store, somethingNew) q =
  if clears errorsByFile store q then (set store q [], true)
  else (store, somethingNew).
Proof.
  unfold setErrors_notFound, clears, getErrorsForFilePath_of.
  now destruct (get store q).
Qed.

Lemma clears_set (errorsByFile store : ErrorsByFilePath) (q p : string) :
  clears errorsByFile (set store q []) p =
  if String.eqb q p then false else clears errorsByFile store p.
Proof.
  unfold clears. destruct (String.eqb_spec q p) as [<-|Hqp].
  - rewrite getErrors_set_eq. simpl. apply andb_false_r.
  - now rewrite getErrors_set_ne.
Qed.

(** After the second loop every listed path that is not in the batch and
    held errors holds the empty list, and somethingNew tells whether there
    was one. *)
Lemma setErrors_notFound_spec (errorsByFile : ErrorsByFilePath)
    (filePaths : list string) (st : ErrorsByFilePath * bool) :
  (forall p,
     get (fst (fold_left (setErrors_notFound errorsByFile) filePaths st)) p =
     if existsb (String.eqb p) filePaths && clears errorsByFile (fst st) p
     then Some [] else get (fst st) p) /\
  (snd (fold_left (setErrors_notFound errorsByFile) filePaths st) = true <->
   snd st = true \/
   exists q, In q filePaths /\ clears errorsByFile (fst st) q = true).
Proof.
  revert st.
  induction filePaths as [|q filePaths IH]; intros [store sn];
    cbn [fold_left].
  - split; [reflexivity|]. cbn [snd]. split; [tauto|].
    intros [H|[q [[] _]]]; exact H.
  - rewrite setErrors_notFound_eq.
    destruct (clears errorsByFile store q) eqn:Hq.
    + destruct (IH (set store q [], true)) as [Hget Hflag]. split.
      * intros p. rewrite Hget. cbn [fst existsb].
        rewrite clears_set.
        destruct (String.eqb_spec q p) as [<-|Hqp].
        -- rewrite andb_false_r, get_set_eq, String.eqb_refl, Hq.
           reflexivity.
        -- rewrite get_set_ne by assumption.
           destruct (String.eqb_spec p q) as [->|_]; [congruence|].
           reflexivity.
      * rewrite Hflag. cbn [fst snd]. split; [intros _|auto].
        right. exists q. split; [now left|exact Hq].
    + destruct (IH (store, sn)) as [Hget Hflag]. split.
      * intros p. rewrite Hget. cbn [fst existsb].
        destruct (String.eqb_spec p q) as [->|_]; auto.
        rewrite Hq, andb_false_r. reflexivity.
      * rewrite Hflag. cbn [fst snd]. split.
        -- intros [H|[q' [Hin Hc]]]; auto.
           right. exists q'. split; [now right|exact Hc].
        -- intros [H|[q' [[<-|Hin] Hc]]]; auto; [congruence|].
           right. exists q'. auto.
Qed.

(** The store after the call, path by path. *)
Lemma setErrorsByFilePaths_loops_get (filePaths : list string)
    (errors : list CodeError) (store : ErrorsByFilePath) (p : string) :
  get (fst (setErrorsByFilePaths_loops filePaths errors store)) p =
  match batchAt errors p with
  | [] =>
      if existsb (String.eqb p) filePaths &&
         negb (List.length (getErrorsForFilePath_of store p) =? 0)
      then Some [] else get store p
  | l => Some l
  end.
Proof.
  unfold setErrorsByFilePaths_loops.
  pose proof (createMapByKey_wf filePath errors) as Hwf.
  destruct (setErrors_notFound_spec
              (createMapByKey errors filePath) filePaths
              (fold_left setErrors_found (createMapByKey errors filePath)
                         (store, false))) as [Hget _].
  destruct (setErrors_found_spec (createMapByKey errors filePath)
                                 (store, false) Hwf) as [Hget1 _].
  rewrite Hget. unfold clears, has, getErrorsForFilePath_of.
  rewrite !Hget1, createMapByKey_get_batch. cbn [fst].
  destruct (batchAt errors p) as [|e l]; cbn [negb andb].
  - reflexivity.
  - now rewrite andb_false_r.
Qed.

Lemma existsb_eqb_In (p : string) (l : list string) :
  existsb (String.eqb p) l = true <-> In p l.
Proof.
  rewrite existsb_exists. split.
  - intros [x [Hin Hx]]. apply String.eqb_eq in Hx. now subst.
  - intros Hin. exists p. split; auto. apply String.eqb_refl.
Qed.

(** X1. "The passed errors are considered the only current errors for the
    filePath": after the call every listed path and every path of the
    batch holds exactly the errors of the batch for it, in the order of
    the batch; a path of the batch is a property of the store; all other
    paths are as before. *)
Theorem setErrorsByFilePaths_only_current (filePaths : list string)
    (errors : list CodeError) (c : ErrorsCache) (p : string) :
  let c' := setErrorsByFilePaths filePaths errors c in
  (In p filePaths \/ In p (map filePath errors) ->
   getErrorsForFilePath p c' = batchAt errors p) /\
  (In p (map filePath errors) ->
   get (_errorsByFilePath c') p = Some (batchAt errors p)) /\
  (~ In p filePaths -> ~ In p (map filePath errors) ->
   get (_errorsByFilePath c') p = get (_errorsByFilePath c) p).
Proof.
  cbv zeta. unfold getErrorsForFilePath, getErrorsForFilePath_of.
  rewrite setErrorsByFilePaths_store, setErrorsByFilePaths_loops_get.
  split; [|split].
  - intros H. destruct (batchAt errors p) as [|e l] eqn:B; auto.
    apply batchAt_nil_iff in B.
    destruct H as [H|H]; [|contradiction].
    apply existsb_eqb_In in H. rewrite H. cbn [andb].
    unfold getErrorsForFilePath_of.
    destruct (get (_errorsByFilePath c) p) as [[|x l]|]; reflexivity.
  - intros H. destruct (batchAt errors p) as [|e l] eqn:B; auto.
    apply batchAt_nil_iff in B. contradiction.
  - intros Hf Hb. apply batchAt_nil_iff in Hb. rewrite Hb.
    destruct (existsb (String.eqb p) filePaths) eqn:E; auto.
    apply existsb_eqb_In in E. contradiction.
Qed.

Lemma setErrorsByFilePaths_only_current_witness :
  let c' := setErrorsByFilePaths ["a.ts"; "b.ts"] [e3] scenarioCache in
  getErrorsForFilePath "a.ts" c' = [e3] /\
  getErrorsForFilePath "b.ts" c' = [].
Proof.
  cbv zeta. split.
  - apply (setErrorsByFilePaths_only_current
             ["a.ts"; "b.ts"] [e3] scenarioCache "a.ts").
    left. simpl. auto.
  - apply (setErrorsByFilePaths_only_current
             ["a.ts"; "b.ts"] [e3] scenarioCache "b.ts").
    left. simpl. auto.
Defined.

Lemma setErrors_found_false (entries : ErrorsByFilePath)
    (st : ErrorsByFilePath * bool) :
  snd (fold_left setErrors_found entries st) = false ->
  fold_left setErrors_found entries st = st.
Proof.
  revert st. induction entries as [|[q l] entries IH]; intros [store sn] H;
    cbn [fold_left] in *; auto.
  rewrite (IH _ H). rewrite (IH _ H) in H.
  unfold setErrors_found in *.
  destruct (negb (equal (get store q) l)); auto. discriminate.
Qed.

Lemma setErrors_notFound_false (errorsByFile : ErrorsByFilePath)
    (filePaths : list string) (st : ErrorsByFilePath * bool) :
  snd (fold_left (setErrors_notFound errorsByFile) filePaths st) = false ->
  fold_left (setErrors_notFound errorsByFile) filePaths st = st.
Proof.
  revert st. induction filePaths as [|q filePaths IH]; intros [store sn] H;
    cbn [fold_left] in *; auto.
  rewrite (IH _ H). rewrite (IH _ H) in H.
  rewrite setErrors_notFound_eq in *.
  destruct (clears errorsByFile store q); auto. discriminate.
Qed.

(** When somethingNew stays false the loops have not touched the store. *)
Lemma setErrorsByFilePaths_loops_false (filePaths : list string)
    (errors : list CodeError) (store : ErrorsByFilePath) :
  snd (setErrorsByFilePaths_loops filePaths errors store) = false ->
  setErrorsByFilePaths_loops filePaths errors store = (store, false).
Proof.
  unfold setErrorsByFilePaths_loops. intros H.
  rewrite (setErrors_notFound_false _ _ _ H).
  rewrite (setErrors_notFound_false _ _ _ H) in H.
  now apply setErrors_found_false.
Qed.

(** When somethingNew is set some path holds another list than before. *)
Lemma setErrorsByFilePaths_loops_true (filePaths : list string)
    (errors : list CodeError) (store : ErrorsByFilePath) :
  snd (setErrorsByFilePaths_loops filePaths errors store) = true ->
  exists p,
    get (fst (setErrorsByFilePaths_loops filePaths errors store)) p <>
    get store p.
Proof.
  intros H.
  pose proof (createMapByKey_wf filePath errors) as Hwf.
  assert (Hcases :
            (exists q l, In (q, l) (createMapByKey errors filePath) /\
                         get store q <> Some l) \/
            (exists q, In q filePaths /\
                       batchAt errors q = [] /\
                       getErrorsForFilePath_of store q <> [])).
  { unfold setErrorsByFilePaths_loops in H.
    destruct (setErrors_notFound_spec
                (createMapByKey errors filePath) filePaths
                (fold_left setErrors_found (createMapByKey errors filePath)
                           (store, false))) as [_ Hflag2].
    destruct (setErrors_found_spec (createMapByKey errors filePath)
                                   (store, false) Hwf) as [Hget1 Hflag1].
    apply Hflag2 in H as [H|[q [Hin Hc]]].
    - apply Hflag1 in H as [H|H]; [discriminate H|]. now left.
    - right. exists q. unfold clears in Hc.
      apply andb_prop in Hc as [Hhas Hlen].
      apply negb_true_iff in Hhas. apply negb_true_iff in Hlen.
      unfold has in Hhas. unfold getErrorsForFilePath_of in Hlen.
      rewrite Hget1 in Hlen. cbn [fst] in Hlen.
      destruct (get (createMapByKey errors filePath) q) eqn:G;
        [discriminate|].
      rewrite createMapByKey_get_batch in G.
      split; [exact Hin|]. split.
      + destruct (batchAt errors q); [reflexivity|discriminate].
      + unfold getErrorsForFilePath_of. intros Hnil. rewrite Hnil in Hlen.
        discriminate. }
  destruct Hcases as [[q [l [Hin Hne]]]|[q [Hin [Hb Hne]]]]; exists q;
    rewrite setErrorsByFilePaths_loops_get.
  - apply (In_get _ _ _ Hwf) in Hin.
    rewrite createMapByKey_get_batch in Hin.
    destruct (batchAt errors q); [discriminate|]. congruence.
  - rewrite Hb. apply existsb_eqb_In in Hin. rewrite Hin. cbn [andb].
    unfold getErrorsForFilePath_of in *.
    destruct (get store q) as [[|x l]|]; simpl; congruence.
Qed.

(** X2. sendErrors is called exactly when the store has changed: a call
    that leaves the store as it was returns the cache as it was, and a
    call that changes the store arms the debounced sendErrors. *)
Theorem setErrorsByFilePaths_sends_iff_changed (filePaths : list string)
    (errors : list CodeError) (c : ErrorsCache) :
  let c' := setErrorsByFilePaths filePaths errors c in
  (_errorsByFilePath c' = _errorsByFilePath c -> c' = c) /\
  (_errorsByFilePath c' <> _errorsByFilePath c ->
   sendErrorsPending c' = true).
Proof.
  cbv zeta.
  destruct (snd (setErrorsByFilePaths_loops filePaths errors
                                            (_errorsByFilePath c))) eqn:F.
  - destruct (setErrorsByFilePaths_loops_true _ _ _ F) as [p Hp].
    split.
    + intros Heq. rewrite setErrorsByFilePaths_store in Heq.
      rewrite Heq in Hp. congruence.
    + intros _. unfold setErrorsByFilePaths.
      destruct (setErrorsByFilePaths_loops _ _ _) as [s b].
      cbn [snd] in F. subst b. reflexivity.
  - apply setErrorsByFilePaths_loops_false in F.
    rewrite (setErrorsByFilePaths_same _ _ _ F).
    split; [reflexivity|congruence].
Qed.

Lemma setErrorsByFilePaths_sends_iff_changed_witness :
  sendErrorsPending
    (setErrorsByFilePaths ["a.ts"; "b.ts"] [e3] scenarioCache) = true /\
  setErrorsByFilePaths ["a.ts"; "b.ts"] [e1; e2] scenarioCache =
  scenarioCache.
Proof.
  split.
  - apply (setErrorsByFilePaths_sends_iff_changed
             ["a.ts"; "b.ts"] [e3] scenarioCache).
    discriminate.
  - apply (setErrorsByFilePaths_sends_iff_changed
             ["a.ts"; "b.ts"] [e1; e2] scenarioCache).
    reflexivity.
Defined.

(** X3. The call is idempotent: repeating it with the same arguments
    changes nothing and does not call sendErrors again. *)
Theorem setErrorsByFilePaths_idempotent (filePaths : list string)
    (errors : list CodeError) (c : ErrorsCache) :
  let c' := setErrorsByFilePaths filePaths errors c in
  setErrorsByFilePaths_loops filePaths errors (_errorsByFilePath c') =
    (_errorsByFilePath c', false) /\
  setErrorsByFilePaths filePaths errors c' = c'.
Proof.
  cbv zeta.
  set (c' := setErrorsByFilePaths filePaths errors c).
  assert (Hloops : setErrorsByFilePaths_loops filePaths errors
                     (_errorsByFilePath c') = (_errorsByFilePath c', false)).
  { apply setErrorsByFilePaths_loops_false.
    destruct (snd (setErrorsByFilePaths_loops filePaths errors
                                              (_errorsByFilePath c')))
      eqn:F; auto.
    destruct (setErrorsByFilePaths_loops_true _ _ _ F) as [p Hp].
    elim Hp. rewrite setErrorsByFilePaths_loops_get.
    unfold c'. unfold getErrorsForFilePath_of.
    rewrite setErrorsByFilePaths_store, setErrorsByFilePaths_loops_get.
    destruct (batchAt errors p) as [|e l]; auto.
    destruct (existsb (String.eqb p) filePaths); cbn [andb]; auto.
    unfold getErrorsForFilePath_of.
    destruct (get (_errorsByFilePath c) p) as [[|x l]|]; reflexivity. }
  split; [exact Hloops|]. now apply setErrorsByFilePaths_same.
Qed.

(** ** Emissions *)

Lemma get_all_None {V : Type} (o : JsObject.t V) :
  (forall p, get o p = None) -> o = [].
Proof.
  destruct o as [|[k v] o]; auto.
  intros H. specialize (H k). simpl in H.
  rewrite String.eqb_refl in H. discriminate.
Qed.

(** A loop that copies every property into an object that has none of
    them appends them in order. *)
Lemma fold_set_app {V : Type}
    (f : JsObject.t V -> string * V -> JsObject.t V)
    (entries acc : JsObject.t V) :
  (forall a e, f a e = set a (fst e) (snd e)) ->
  NoDup (keys acc ++ keys entries) ->
  fold_left f entries acc = acc ++ entries.
Proof.
  intros Hf. revert acc.
  induction entries as [|[k v] entries IH]; intros acc Hnd; cbn [fold_left].
  - now rewrite app_nil_r.
  - rewrite Hf. cbn [fst snd].
    assert (Hk : get acc k = None).
    { apply get_None_keys. intros Hin.
      apply NoDup_remove_2 in Hnd. apply Hnd. apply in_or_app. now left. }
    rewrite (set_fresh _ _ _ Hk), IH.
    + now rewrite <- app_assoc.
    + unfold keys in *. rewrite map_app, <- app_assoc. exact Hnd.
Qed.

Lemma preserve_same (store : ErrorsByFilePath) :
  wf store -> preserve store = store.
Proof.
  intros Hwf. unfold preserve.
  exact (fold_set_app _ store empty (fun _ _ => eq_refl) Hwf).
Qed.

Lemma sendErrors_removed_all (old : ErrorsByFilePath) :
  wf old -> fold_left (sendErrors_removed empty) old empty = old.
Proof.
  intros Hwf.
  refine (fold_set_app (sendErrors_removed empty) old empty _ Hwf).
  intros a [k v]. reflexivity.
Qed.

Lemma notIn_same (l : list CodeError) : notIn l l = [].
Proof.
  apply notIn_nil_iff. intros e He. unfold keysOf. now apply in_map.
Qed.

Lemma notIn_nil_r (those : list CodeError) : notIn those [] = [].
Proof. reflexivity. Qed.

(** A snapshot compared with itself gives no addition and no removal. *)
Lemma sendErrors_delta_same (store : ErrorsByFilePath) :
  wf store ->
  sendErrors_delta store store = {| added := empty; removed := empty |}.
Proof.
  intros Hwf.
  assert (H : fold_left (sendErrors_added store) store empty = empty).
  { apply get_all_None. intros p. rewrite delta_get by assumption.
    destruct (get store p) as [l|]; auto. now rewrite notIn_same. }
  unfold sendErrors_delta.
  change (sendErrors_removed store) with (sendErrors_added store).
  now rewrite H.
Qed.

(** X4. clearErrors empties the store whatever it held and always calls
    sendErrors; the delta sent next has no addition and removes every
    list of the last sent snapshot as a whole, the limited view sent is
    empty, and the baseline becomes empty. *)
Theorem clearErrors_removes_all (c : ErrorsCache) :
  wf (lastErrorsByFilePath c) ->
  let c' := clearErrors c in
  (forall p, getErrorsForFilePath p c' = []) /\
  sendErrorsPending c' = true /\
  errorsDelta (timerFires c') =
    errorsDelta c ++
    [ {| added := empty; removed := lastErrorsByFilePath c |} ] /\
  errorsUpdated (timerFires c') =
    errorsUpdated c ++
    [ {| errorsByFilePath := empty; totalCount := 0; syncCount := 0;
         tooMany := false |} ] /\
  lastErrorsByFilePath (timerFires c') = empty.
Proof.
  intros Hwf. cbv zeta.
  split; [reflexivity|]. split; [reflexivity|].
  unfold timerFires, clearErrors, sendErrors_body, sendErrors_delta.
  cbn [sendErrors with_errorsByFilePath sendErrorsPending errorsDelta
       errorsUpdated lastErrorsByFilePath _errorsByFilePath fold_left].
  rewrite sendErrors_removed_all by assumption.
  repeat split.
Qed.

Lemma clearErrors_removes_all_witness :
  errorsDelta (timerFires (clearErrors scenarioCache)) =
  [ {| added := empty; removed := scenarioStore |} ] /\
  getErrorsForFilePath "a.ts" (clearErrors scenarioCache) = [].
Proof.
  assert (Hwf : wf (lastErrorsByFilePath scenarioCache))
    by (apply wfb_wf; reflexivity).
  split.
  - apply (clearErrors_removes_all scenarioCache Hwf).
  - apply (clearErrors_removes_all scenarioCache Hwf).
Defined.

(** X5. clearErrorsForFilePath leaves the empty list at the path (also
    when the store did not have it), leaves the other paths alone, keeps
    the baseline and what was emitted, and always calls sendErrors, so
    that the timer then emits the delta of the baseline and the new store;
    when the store was the last sent snapshot, that delta removes the
    errors that path held and nothing else, and adds nothing. *)
Theorem clearErrorsForFilePath_delta (p : string) (c : ErrorsCache) :
  let c' := clearErrorsForFilePath p c in
  let delta :=
    sendErrors_delta (lastErrorsByFilePath c') (_errorsByFilePath c') in
  get (_errorsByFilePath c') p = Some [] /\
  (forall q, q <> p ->
             get (_errorsByFilePath c') q = get (_errorsByFilePath c) q) /\
  sendErrorsPending c' = true /\
  lastErrorsByFilePath c' = lastErrorsByFilePath c /\
  errorsUpdated c' = errorsUpdated c /\
  errorsDelta c' = errorsDelta c /\
  errorsDelta (timerFires c') = errorsDelta c ++ [delta] /\
  (wf (_errorsByFilePath c) ->
   lastErrorsByFilePath c = _errorsByFilePath c ->
   getErrorsForFilePath_of (removed delta) p = getErrorsForFilePath p c /\
   (forall q, q <> p -> get (removed delta) q = None) /\
   (forall q, getErrorsForFilePath_of (added delta) q = [])).
Proof.
  cbv zeta. unfold clearErrorsForFilePath.
  cbn [sendErrors with_errorsByFilePath sendErrorsPending errorsDelta
       errorsUpdated lastErrorsByFilePath _errorsByFilePath timerFires
       sendErrors_body].
  split; [apply get_set_eq|]. split; [intros q Hq; now apply get_set_ne|].
  split; [reflexivity|]. split; [reflexivity|]. split; [reflexivity|].
  split; [reflexivity|]. split; [reflexivity|].
  intros Hwf Hlast. rewrite Hlast.
  assert (Hwf' : wf (set (_errorsByFilePath c) p [])) by now apply wf_set.
  rewrite sendErrors_delta_added, sendErrors_delta_removed.
  split; [|split].
  - rewrite delta_list by assumption.
    rewrite getErrors_set_eq. apply notIn_nil_l.
  - intros q Hq. rewrite delta_get by assumption.
    rewrite get_set_ne by congruence.
    destruct (get (_errorsByFilePath c) q); auto. now rewrite notIn_same.
  - intros q. rewrite delta_list by assumption.
    destruct (string_dec p q) as [<-|Hpq].
    + now rewrite getErrors_set_eq.
    + rewrite getErrors_set_ne by assumption. apply notIn_same.
Qed.

Lemma clearErrorsForFilePath_delta_witness :
  let c' := clearErrorsForFilePath "a.ts" scenarioCache in
  let delta :=
    sendErrors_delta (lastErrorsByFilePath c') (_errorsByFilePath c') in
  errorsDelta (timerFires c') =
    [ {| added := empty; removed := [("a.ts", [e1])] |} ] /\
  get (_errorsByFilePath c') "a.ts" = Some [] /\
  getErrorsForFilePath_of (removed delta) "a.ts" =
    getErrorsForFilePath "a.ts" scenarioCache /\
  get (_errorsByFilePath
         (clearErrorsForFilePath "new.ts"
            (setErrorsByFilePaths ["a.ts"; "b.ts"] [e3] scenarioCache)))
      "new.ts" = Some [].
Proof.
  cbv zeta. split; [reflexivity|]. split; [|split].
  - apply (clearErrorsForFilePath_delta "a.ts" scenarioCache).
  - apply (clearErrorsForFilePath_delta "a.ts" scenarioCache).
    + apply wfb_wf. reflexivity.
    + reflexivity.
  - apply (clearErrorsForFilePath_delta
             "new.ts"
             (setErrorsByFilePaths ["a.ts"; "b.ts"] [e3] scenarioCache)).
Defined.

(** X6. When the timer fires the store becomes the baseline and nothing
    stays pending, so the timer alone emits nothing more; a further
    sendErrors with the store unchanged emits a delta without additions
    and removals. *)
Theorem sendErrors_synced_delta_empty (c : ErrorsCache) :
  wf (_errorsByFilePath c) ->
  sendErrorsPending c = true ->
  let c1 := timerFires c in
  lastErrorsByFilePath c1 = _errorsByFilePath c /\
  _errorsByFilePath c1 = _errorsByFilePath c /\
  timerFires c1 = c1 /\
  errorsDelta (timerFires (sendErrors c1)) =
    errorsDelta c1 ++ [ {| added := empty; removed := empty |} ].
Proof.
  intros Hwf Hp. cbv zeta.
  assert (Hfire : timerFires c = sendErrors_body c)
    by (unfold timerFires; now rewrite Hp).
  rewrite Hfire.
  unfold timerFires, sendErrors, sendErrors_body.
  cbn [sendErrorsPending lastErrorsByFilePath _errorsByFilePath errorsDelta].
  rewrite !preserve_same by assumption.
  rewrite sendErrors_delta_same by assumption.
  repeat split.
Qed.

Lemma sendErrors_synced_delta_empty_witness :
  let c := setErrorsByFilePaths ["a.ts"; "b.ts"] [e3] scenarioCache in
  lastErrorsByFilePath (timerFires c) = [("a.ts", [e3]); ("b.ts", [])] /\
  List.length (errorsDelta (timerFires (sendErrors (timerFires c)))) = 2 /\
  errorsDelta (timerFires (sendErrors (timerFires c))) =
    errorsDelta (timerFires c) ++ [ {| added := empty; removed := empty |} ].
Proof.
  cbv zeta. split; [reflexivity|]. split; [reflexivity|].
  apply (sendErrors_synced_delta_empty
           (setErrorsByFilePaths ["a.ts"; "b.ts"] [e3] scenarioCache)).
  - apply wfb_wf. reflexivity.
  - reflexivity.
Defined.

(** ** A mirror cache fed with the deltas *)

Lemma keyEquivalent_keysOf (s1 s2 : ErrorsByFilePath) :
  wf s1 -> wf s2 ->
  (keyEquivalent s1 s2 <->
   forall p k, In k (keysOf (getErrorsForFilePath_of s1 p)) <->
               In k (keysOf (getErrorsForFilePath_of s2 p))).
Proof.
  intros H1 H2. unfold keyEquivalent. split; intros H p k.
  - rewrite <- !identityKeys_In by assumption. apply H.
  - rewrite !identityKeys_In by assumption. apply H.
Qed.

(** X7. A mirror whose store has the identity keys of the sender's last
    sent snapshot has, once it has applied the delta the sender emits, the
    identity keys of the sender's new last sent snapshot: feeding every
    emitted delta to applyDelta keeps the mirror key-equivalent to what
    the sender has sent. *)
Theorem mirror_stays_key_equivalent (sender mirror : ErrorsCache) :
  wf (lastErrorsByFilePath sender) ->
  wf (_errorsByFilePath sender) ->
  wf (_errorsByFilePath mirror) ->
  keyEquivalent (_errorsByFilePath mirror) (lastErrorsByFilePath sender) ->
  let delta :=
    sendErrors_delta (lastErrorsByFilePath sender)
                     (_errorsByFilePath sender) in
  errorsDelta (sendErrors_body sender) = errorsDelta sender ++ [delta] /\
  wf (lastErrorsByFilePath (sendErrors_body sender)) /\
  wf (_errorsByFilePath (sendErrors_body sender)) /\
  wf (_errorsByFilePath (applyDelta delta mirror)) /\
  keyEquivalent (_errorsByFilePath (applyDelta delta mirror))
                (lastErrorsByFilePath (sendErrors_body sender)).
Proof.
  intros Hlast Hstore Hmirror Heq. cbv zeta.
  cbn [sendErrors_body errorsDelta lastErrorsByFilePath _errorsByFilePath].
  rewrite preserve_same by assumption.
  change (_errorsByFilePath (applyDelta ?d mirror))
    with (applyDelta_store (_errorsByFilePath mirror) d).
  assert (Hwf' : wf (applyDelta_store
                       (_errorsByFilePath mirror)
                       (sendErrors_delta (lastErrorsByFilePath sender)
                                         (_errorsByFilePath sender))))
    by now apply applyDelta_store_wf.
  split; [reflexivity|]. split; [exact Hstore|]. split; [exact Hstore|].
  split; [exact Hwf'|].
  apply (proj2 (keyEquivalent_keysOf _ _ Hwf' Hstore)).
  pose proof (proj1 (keyEquivalent_keysOf _ _ Hmirror Hlast) Heq) as Heq'.
  intros p k.
  rewrite applyDelta_store_list by apply delta_wf.
  rewrite !sendErrors_delta_added, !sendErrors_delta_removed.
  rewrite !delta_list by assumption.
  rewrite keysOf_filter_app, !keysOf_notIn, (Heq' p k).
  destruct (in_dec string_dec k
              (keysOf (getErrorsForFilePath_of
                         (lastErrorsByFilePath sender) p)));
    destruct (in_dec string_dec k
                (keysOf (getErrorsForFilePath_of
                           (_errorsByFilePath sender) p)));
    tauto.
Qed.

Lemma mirror_stays_key_equivalent_witness :
  let sender := setErrorsByFilePaths ["a.ts"; "b.ts"] [e3] scenarioCache in
  let mirror :=
    cacheOf [("b.ts", [e2]);
             ("a.ts", [mkError "a.ts" 1 2 "msg1" {| line := 9; ch := 9 |}
                               "stale"])] in
  let delta :=
    sendErrors_delta (lastErrorsByFilePath sender)
                     (_errorsByFilePath sender) in
  _errorsByFilePath (applyDelta delta mirror) =
    [("b.ts", []); ("a.ts", [e3])] /\
  keyEquivalent (_errorsByFilePath (applyDelta delta mirror))
                (lastErrorsByFilePath (sendErrors_body sender)).
Proof.
  cbv zeta. split; [reflexivity|].
  apply (mirror_stays_key_equivalent
           (setErrorsByFilePaths ["a.ts"; "b.ts"] [e3] scenarioCache)
           (cacheOf [("b.ts", [e2]);
                     ("a.ts", [mkError "a.ts" 1 2 "msg1"
                                       {| line := 9; ch := 9 |} "stale"])])).
  - apply wfb_wf. reflexivity.
  - apply wfb_wf. reflexivity.
  - apply wfb_wf. reflexivity.
  - assert (H1 : wf [("b.ts", [e2]);
                       ("a.ts", [mkError "a.ts" 1 2 "msg1"
                                         {| line := 9; ch := 9 |} "stale"])])
      by (apply wfb_wf; reflexivity).
    assert (H2 : wf scenarioStore) by (apply wfb_wf; reflexivity).
    apply (proj2 (keyEquivalent_keysOf _ _ H1 H2)).
    intros p k.
    destruct (string_dec p "a.ts") as [->|Ha]; [simpl; tauto|].
    destruct (string_dec p "b.ts") as [->|Hb]; [simpl; tauto|].
    unfold getErrorsForFilePath_of, scenarioStore. cbn [get].
    destruct (String.eqb_spec "a.ts" p); [congruence|].
    destruct (String.eqb_spec "b.ts" p); [congruence|].
    tauto.
Defined.

(** X8. After applyDelta no error that has the identity key of a removed
    error is left at that path, also when the same delta added it: the
    additions are merged first and the removals filter the merged list. *)
Theorem applyDelta_removed_keys_gone (delta : ErrorCacheDelta)
    (c : ErrorsCache) (p : string) (e : CodeError) :
  wf (added delta) -> wf (removed delta) ->
  In e (getErrorsForFilePath p (applyDelta delta c)) ->
  ~ In (errorKey e) (keysOf (getErrorsForFilePath_of (removed delta) p)) /\
  (In e (getErrorsForFilePath p c) \/
   In e (getErrorsForFilePath_of (added delta) p)).
Proof.
  intros Ha Hr. unfold getErrorsForFilePath.
  change (_errorsByFilePath (applyDelta delta c))
    with (applyDelta_store (_errorsByFilePath c) delta).
  rewrite applyDelta_store_list by assumption.
  rewrite filter_In, negb_true_iff, keyIn_false, in_app_iff. tauto.
Qed.

Lemma applyDelta_removed_keys_gone_witness :
  let delta := {| added := [("a.ts", [e3])]; removed := [("a.ts", [e3])] |} in
  In e1 (getErrorsForFilePath "a.ts" (applyDelta delta scenarioCache)) /\
  ~ In (errorKey e1)
       (keysOf (getErrorsForFilePath_of (removed delta) "a.ts")) /\
  ~ In e3 (getErrorsForFilePath "a.ts" (applyDelta delta scenarioCache)).
Proof.
  cbv zeta.
  assert (Hin : In e1 (getErrorsForFilePath "a.ts"
                         (applyDelta {| added := [("a.ts", [e3])];
                                        removed := [("a.ts", [e3])] |}
                                     scenarioCache)))
    by (simpl; auto).
  split; [exact Hin|]. split.
  - apply (applyDelta_removed_keys_gone
             {| added := [("a.ts", [e3])]; removed := [("a.ts", [e3])] |}
             scenarioCache "a.ts" e1); try (apply wfb_wf; reflexivity).
    exact Hin.
  - simpl. intros [H|[]]. discriminate H.
Defined.

(** X9. applyDelta does not look for duplicates: at a path without
    removals the added errors are appended, in order, after the errors the
    store holds, so an error that is already stored is stored twice. *)
Theorem applyDelta_appends (delta : ErrorCacheDelta) (c : ErrorsCache)
    (p : string) :
  wf (added delta) -> wf (removed delta) ->
  getErrorsForFilePath_of (removed delta) p = [] ->
  getErrorsForFilePath p (applyDelta delta c) =
  getErrorsForFilePath p c ++ getErrorsForFilePath_of (added delta) p.
Proof.
  intros Ha Hr Hnone. unfold getErrorsForFilePath.
  change (_errorsByFilePath (applyDelta delta c))
    with (applyDelta_store (_errorsByFilePath c) delta).
  rewrite applyDelta_store_list by assumption.
  rewrite Hnone. apply (notIn_nil_l _).
Qed.

Lemma applyDelta_appends_witness :
  getErrorsForFilePath "a.ts"
    (applyDelta {| added := [("a.ts", [e1; e3])]; removed := empty |}
                scenarioCache) = [e1; e1; e3].
Proof.
  apply (applyDelta_appends
           {| added := [("a.ts", [e1; e3])]; removed := empty |}
           scenarioCache "a.ts").
  - apply wfb_wf. reflexivity.
  - apply wfb_wf. reflexivity.
  - reflexivity.
Defined.

(** ** More on the limited view *)

Lemma getErrorsLimited_loop_bound (entries limitedCopy : ErrorsByFilePath)
    (total : nat) :
  total <= 200 ->
  snd (getErrorsLimited_loop entries limitedCopy total) <= 250.
Proof.
  revert limitedCopy total.
  induction entries as [|[fp errors] rest IH]; intros lc total Hle.
  - simpl. lia.
  - rewrite getErrorsLimited_loop_cons.
    pose proof (firstn_le_length 50 errors) as H50.
    destruct (Nat.ltb_spec 200 (total + List.length (firstn 50 errors))).
    + cbn [snd]. lia.
    + apply IH. lia.
Qed.

Lemma getErrorsLimited_of_counts (store : ErrorsByFilePath) :
  totalCount (getErrorsLimited_of store) = errorCount store /\
  syncCount (getErrorsLimited_of store) =
    snd (getErrorsLimited_loop store empty 0) /\
  tooMany (getErrorsLimited_of store) =
    negb (syncCount (getErrorsLimited_of store) =? errorCount store).
Proof.
  unfold getErrorsLimited_of.
  destruct (getErrorsLimited_loop store empty 0) as [lc total].
  cbn [totalCount syncCount tooMany snd].
  rewrite fold_left_add. repeat split.
Qed.

(** X10. However many errors the store holds, the limited view counts at
    most 250 of them: the loop stops at the first file that takes the
    total over 200, and that file brings at most 50. *)
Theorem getErrorsLimited_at_most_250 (c : ErrorsCache) :
  syncCount (getErrorsLimited c) <= 250 /\
  (wf (_errorsByFilePath c) ->
   errorCount (errorsByFilePath (getErrorsLimited c)) <= 250).
Proof.
  unfold getErrorsLimited.
  destruct (getErrorsLimited_of_counts (_errorsByFilePath c))
    as [_ [Hsync _]].
  assert (Hb : syncCount (getErrorsLimited_of (_errorsByFilePath c)) <= 250).
  { rewrite Hsync. apply getErrorsLimited_loop_bound. lia. }
  split; [exact Hb|].
  intros Hwf.
  destruct (getErrorsLimited_of_spec _ Hwf) as [n [_ [Heq [Hs _]]]].
  rewrite Heq. rewrite Hs in Hb.
  unfold cappedCount in Hb. unfold errorCount. now rewrite map_map.
Qed.

Lemma getErrorsLimited_at_most_250_witness :
  let full : ErrorsByFilePath :=
    [("f1", repeat e1 60); ("f2", repeat e1 50); ("f3", repeat e1 50);
     ("f4", repeat e1 50); ("f5", repeat e1 70); ("f6", repeat e1 1)] in
  syncCount (getErrorsLimited (cacheOf full)) = 250 /\
  totalCount (getErrorsLimited (cacheOf full)) = 281 /\
  errorCount (errorsByFilePath (getErrorsLimited (cacheOf full))) <= 250.
Proof.
  cbv zeta. split; [reflexivity|]. split; [reflexivity|].
  apply (getErrorsLimited_at_most_250 (cacheOf _)).
  apply wfb_wf. reflexivity.
Defined.

Lemma errorCount_app (a b : ErrorsByFilePath) :
  errorCount (a ++ b) = errorCount a + errorCount b.
Proof.
  unfold errorCount. now rewrite map_app, list_sum_app.
Qed.

Lemma errorCount_zero (entries : ErrorsByFilePath) :
  errorCount entries = 0 <-> forall p l, In (p, l) entries -> l = [].
Proof.
  induction entries as [|[q l'] entries IH].
  - split; [intros _ p l []|reflexivity].
  - change (errorCount ((q, l') :: entries))
      with (List.length l' + errorCount entries).
    split.
    + intros H p l [[= <- <-]|Hin].
      * destruct l'; [reflexivity|simpl in H; lia].
      * apply (proj1 IH) with (p := p); [lia|exact Hin].
    + intros H. rewrite (H q l' (or_introl eq_refl)).
      simpl. apply IH. intros p l Hin. apply (H p l). now right.
Qed.

Lemma cappedCount_full (entries : ErrorsByFilePath) :
  cappedCount entries = errorCount entries <-> map capEntry entries = entries.
Proof.
  induction entries as [|[q l] entries IH].
  - split; reflexivity.
  - rewrite cappedCount_cons.
    change (errorCount ((q, l) :: entries))
      with (List.length l + errorCount entries).
    pose proof (cappedCount_le entries (List.length entries)) as Hle.
    rewrite firstn_all in Hle.
    assert (Hl : List.length (firstn 50 l) <= List.length l)
      by (rewrite length_firstn; lia).
    cbn [map]. unfold capEntry at 1. cbn [fst snd].
    assert (Hfull : List.length (firstn 50 l) = List.length l ->
                    firstn 50 l = l).
    { intros H1. apply firstn_all2. rewrite length_firstn in H1. lia. }
    remember (firstn 50 l) as fl eqn:Efl. split.
    + intros H.
      assert (H1 : List.length fl = List.length l) by lia.
      assert (H2 : cappedCount entries = errorCount entries) by lia.
      rewrite (proj1 IH H2), (Hfull H1). reflexivity.
    + intros [= H1 H2]. rewrite H1, (proj2 IH H2). reflexivity.
Qed.

Lemma get_app {V : Type} (a b : JsObject.t V) (p : string) :
  get (a ++ b) p = match get a p with Some v => Some v | None => get b p end.
Proof.
  induction a as [|[k v] a IH]; simpl; auto.
  destruct (String.eqb k p); auto.
Qed.

Lemma wf_app_inv {V : Type} (a b : JsObject.t V) :
  wf (a ++ b) ->
  wf a /\ wf b /\ forall p, In p (keys a) -> ~ In p (keys b).
Proof.
  unfold wf, keys. rewrite map_app. intros H.
  split; [now apply NoDup_app_remove_r in H|].
  split; [now apply NoDup_app_remove_l in H|].
  intros p. now apply NoDup_app_disjoint.
Qed.

(** X11. tooMany is false exactly when the limited view has lost no
    error: every path reads the same list in the view as in the store
    (a file left out of the view is then a file without errors). *)
Theorem getErrorsLimited_tooMany_false (c : ErrorsCache) :
  wf (_errorsByFilePath c) ->
  (tooMany (getErrorsLimited c) = false <->
   forall p,
     getErrorsForFilePath_of (errorsByFilePath (getErrorsLimited c)) p =
     getErrorsForFilePath p c).
Proof.
  intros Hwf. unfold getErrorsLimited, getErrorsForFilePath.
  destruct (getErrorsLimited_of_counts (_errorsByFilePath c))
    as [_ [_ Htoo]].
  destruct (getErrorsLimited_of_spec _ Hwf) as [n [_ [Heq [Hsync _]]]].
  rewrite Htoo, Hsync, Heq, negb_false_iff, Nat.eqb_eq.
  set (s1 := firstn n (_errorsByFilePath c)).
  set (s2 := skipn n (_errorsByFilePath c)).
  assert (Hs : _errorsByFilePath c = s1 ++ s2)
    by (symmetry; apply firstn_skipn).
  rewrite Hs in Hwf. rewrite Hs.
  destruct (wf_app_inv _ _ Hwf) as [Hwf1 [Hwf2 Hdisj]].
  pose proof (cappedCount_le s1 (List.length s1)) as Hle.
  rewrite firstn_all in Hle.
  rewrite errorCount_app. split.
  - intros H.
    assert (H1 : cappedCount s1 = errorCount s1) by lia.
    assert (H2 : errorCount s2 = 0) by lia.
    apply cappedCount_full in H1. rewrite H1.
    intros p. unfold getErrorsForFilePath_of. rewrite get_app.
    destruct (get s1 p) as [l|]; auto.
    destruct (get s2 p) as [l|] eqn:G; auto.
    apply get_Some_In in G. symmetry.
    now apply (proj1 (errorCount_zero s2) H2 p l).
  - intros H.
    assert (H1 : map capEntry s1 = s1).
    { rewrite <- (map_id s1) at 2. apply map_ext_in.
      intros [p l] Hin. unfold capEntry. cbn [fst snd]. f_equal.
      specialize (H p). unfold getErrorsForFilePath_of in H.
      rewrite get_app, get_map_capEntry in H.
      rewrite (In_get _ _ _ Hwf1 Hin) in H. exact H. }
    assert (H2 : errorCount s2 = 0).
    { apply errorCount_zero. intros p l Hin.
      specialize (H p). unfold getErrorsForFilePath_of in H.
      rewrite get_app, get_map_capEntry in H.
      assert (Hn : get s1 p = None).
      { apply get_None_keys. intros Hk. apply (Hdisj p Hk).
        apply (in_map fst) in Hin. exact Hin. }
      rewrite Hn, (In_get _ _ _ Hwf2 Hin) in H. cbn [option_map] in H.
      now symmetry. }
    apply cappedCount_full in H1. lia.
Qed.

Lemma getErrorsLimited_tooMany_false_witness :
  let store : ErrorsByFilePath :=
    [("f1", repeat e1 50); ("f2", repeat e1 50); ("f3", repeat e1 50);
     ("f4", repeat e1 50); ("f5", [e1]); ("f6", [])] in
  tooMany (getErrorsLimited (cacheOf store)) = false /\
  keys (errorsByFilePath (getErrorsLimited (cacheOf store))) =
    ["f1"; "f2"; "f3"; "f4"; "f5"] /\
  (forall p,
     getErrorsForFilePath_of
       (errorsByFilePath (getErrorsLimited (cacheOf store))) p =
     getErrorsForFilePath p (cacheOf store)).
Proof.
  cbv zeta. split; [reflexivity|]. split; [reflexivity|].
  apply (getErrorsLimited_tooMany_false (cacheOf _)).
  - apply wfb_wf. reflexivity.
  - reflexivity.
Defined.

(** X12. A store with at most 50 errors in every file and at most 200 in
    all is sent whole: the limited copy is the store, the two counts are
    its number of errors and tooMany is false. A total of exactly 200 is
    still within the limit. *)
Theorem getErrorsLimited_within_limits (c : ErrorsCache) :
  wf (_errorsByFilePath c) ->
  (forall p l, In (p, l) (_errorsByFilePath c) -> List.length l <= 50) ->
  errorCount (_errorsByFilePath c) <= 200 ->
  getErrorsLimited c =
  {| errorsByFilePath := _errorsByFilePath c;
     totalCount := errorCount (_errorsByFilePath c);
     syncCount := errorCount (_errorsByFilePath c);
     tooMany := false |}.
Proof.
  intros Hwf H50 H200. unfold getErrorsLimited.
  destruct (getErrorsLimited_of_counts (_errorsByFilePath c))
    as [Htotal [_ Htoo]].
  destruct (getErrorsLimited_of_spec _ Hwf)
    as [n [Hn [Heq [Hsync [_ [Hafter _]]]]]].
  pose proof (cappedCount_le (_errorsByFilePath c) n) as Hle.
  assert (Hall : n = List.length (_errorsByFilePath c)).
  { destruct (Nat.eq_dec n (List.length (_errorsByFilePath c))); auto.
    assert (Hlt : n < List.length (_errorsByFilePath c)) by lia.
    specialize (Hafter Hlt). lia. }
  rewrite Hall, firstn_all in Heq, Hsync.
  assert (Hcap : map capEntry (_errorsByFilePath c) = _errorsByFilePath c).
  { rewrite <- (map_id (_errorsByFilePath c)) at 2. apply map_ext_in.
    intros [p l] Hin. unfold capEntry. cbn [fst snd]. f_equal.
    apply firstn_all2. now apply (H50 p). }
  rewrite Hcap in Heq.
  rewrite (proj2 (cappedCount_full _) Hcap) in Hsync.
  rewrite Hsync, Nat.eqb_refl in Htoo.
  destruct (getErrorsLimited_of (_errorsByFilePath c)).
  cbn [errorsByFilePath totalCount syncCount tooMany] in *.
  now subst.
Qed.

Lemma getErrorsLimited_within_limits_witness :
  let store : ErrorsByFilePath :=
    [("f1", repeat e1 50); ("f2", repeat e1 50); ("f3", repeat e1 50);
     ("f4", repeat e1 50)] in
  getErrorsLimited (cacheOf store) =
  {| errorsByFilePath := store; totalCount := 200; syncCount := 200;
     tooMany := false |}.
Proof.
  intros store.
  assert (Hwf : wf (_errorsByFilePath (cacheOf store)))
    by (apply wfb_wf; reflexivity).
  assert (H50 : forall p l, In (p, l) (_errorsByFilePath (cacheOf store)) ->
                            List.length l <= 50).
  { intros p l [[= <- <-]|[[= <- <-]|[[= <- <-]|[[= <- <-]|[]]]]];
      vm_compute; lia. }
  assert (H200 : errorCount (_errorsByFilePath (cacheOf store)) <= 200)
    by (vm_compute; lia).
  exact (getErrorsLimited_within_limits (cacheOf store) Hwf H50 H200).
Defined.

(** * The matched segments *)

Example getMatchedSegments_ex :
  getMatchedSegments (fun i => (i <? 2) || (i =? 4)) "hello" =
  [ {| str := "he"; matched := true |};
    {| str := "ll"; matched := false |};
    {| str := "o"; matched := true |} ].
Proof. reflexivity. Qed.

Lemma alternatingFlags_snoc (flags : list bool) (x y : bool) :
  alternatingFlags (flags ++ [x]) -> x <> y ->
  alternatingFlags (flags ++ [x; y]).
Proof.
  intros H Hxy. induction flags as [|a flags IH].
  - simpl. auto.
  - destruct flags as [|b flags].
    + simpl in *. tauto.
    + destruct H as [Hab H]. split; [exact Hab|]. now apply IH.
Qed.

Lemma alternating_snoc (segments : list MatchedSegment)
    (x y : MatchedSegment) :
  alternating (segments ++ [x]) -> matched x <> matched y ->
  alternating (segments ++ [x; y]).
Proof.
  unfold alternating. rewrite !map_app. apply alternatingFlags_snoc.
Qed.

Lemma alternating_last (segments : list MatchedSegment)
    (x x' : MatchedSegment) :
  alternating (segments ++ [x]) -> matched x = matched x' ->
  alternating (segments ++ [x']).
Proof.
  unfold alternating. rewrite !map_app. simpl. now intros H <-.
Qed.

Lemma expandSegments_snoc (segments : list MatchedSegment)
    (chars : list ascii) (flag : bool) :
  expandSegments
    (segments ++ [ {| str := string_of_list_ascii chars; matched := flag |} ])
  = expandSegments segments ++ map (fun ch => (ch, flag)) chars.
Proof.
  unfold expandSegments. rewrite flat_map_app. simpl.
  now rewrite list_ascii_of_string_of_list_ascii, app_nil_r.
Qed.

Lemma In_snoc {A : Type} (l : list A) (x y : A) :
  In y (l ++ [x]) <-> In y l \/ y = x.
Proof.
  rewrite in_app_iff. simpl. intuition congruence.
Qed.

(** One round keeps the invariant and accounts for its character. *)
Lemma getMatchedSegments_step_spec (matchMap : nat -> bool)
    (st : SegmentsState) (c : ascii) (i : nat) :
  segmentsInvariant st ->
  segmentsInvariant (getMatchedSegments_step matchMap st (c, i)) /\
  expandSegments (combined (closeOff (getMatchedSegments_step matchMap st
                                                              (c, i)))) =
  expandSegments (combined (closeOff st)) ++ [(c, matchMap i)].
Proof.
  destruct st as [[|a cu] [|b cm] comb];
    intros [Hone [Hstart [Hne Halt]]];
    unfold getMatchedSegments_step; destruct (matchMap i) eqn:E;
    unfold segmentsInvariant, closeOff, closeOffUnmatched, closeOffMatched,
      nonEmpty in *;
    cbn in Hone, Hstart, Hne, Halt |- *.
  - (* nothing read yet, matched character *)
    rewrite (Hstart eq_refl eq_refl) in *.
    repeat split; auto; try discriminate.
    intros seg [<-|[]]. discriminate.
  - (* nothing read yet, unmatched character *)
    rewrite (Hstart eq_refl eq_refl) in *.
    repeat split; auto; try discriminate.
    intros seg [<-|[]]. discriminate.
  - (* in a matched run, matched character *)
    split; [split; [auto|split; [discriminate|split]]|].
    + intros seg Hin. apply In_snoc in Hin as [Hin| ->].
      * apply Hne. apply In_snoc. now left.
      * discriminate.
    + eapply alternating_last; [exact Halt|reflexivity].
    + change (String b (string_of_list_ascii (cm ++ [c])))
        with (string_of_list_ascii ((b :: cm) ++ [c])).
      change (String b (string_of_list_ascii cm))
        with (string_of_list_ascii (b :: cm)).
      rewrite !expandSegments_snoc, map_app, app_assoc. reflexivity.
  - (* in a matched run, unmatched character *)
    split; [split; [auto|split; [discriminate|split]]|].
    + intros seg Hin. apply In_snoc in Hin as [Hin| ->].
      * now apply Hne.
      * discriminate.
    + rewrite <- app_assoc. apply alternating_snoc; [exact Halt|].
      discriminate.
    + change (String c "") with (string_of_list_ascii [c]).
      now rewrite expandSegments_snoc.
  - (* in an unmatched run, matched character *)
    split; [split; [auto|split; [discriminate|split]]|].
    + intros seg Hin. apply In_snoc in Hin as [Hin| ->].
      * now apply Hne.
      * discriminate.
    + rewrite <- app_assoc. apply alternating_snoc; [exact Halt|].
      discriminate.
    + change (String c "") with (string_of_list_ascii [c]).
      now rewrite expandSegments_snoc.
  - (* in an unmatched run, unmatched character *)
    split; [split; [auto|split; [discriminate|split]]|].
    + intros seg Hin. apply In_snoc in Hin as [Hin| ->].
      * apply Hne. apply In_snoc. now left.
      * discriminate.
    + eapply alternating_last; [exact Halt|reflexivity].
    + change (String a (string_of_list_ascii (cu ++ [c])))
        with (string_of_list_ascii ((a :: cu) ++ [c])).
      change (String a (string_of_list_ascii cu))
        with (string_of_list_ascii (a :: cu)).
      rewrite !expandSegments_snoc, map_app, app_assoc. reflexivity.
  - destruct Hone; discriminate.
  - destruct Hone; discriminate.
Qed.

Lemma indexedFrom_cons {A : Type} (k : nat) (a : A) (l : list A) :
  indexedFrom k (a :: l) = (a, k) :: indexedFrom (S k) l.
Proof. reflexivity. Qed.

Lemma map_fst_indexedFrom {A : Type} (k : nat) (l : list A) :
  map fst (indexedFrom k l) = l.
Proof.
  revert k. induction l as [|a l IH]; intros k; [reflexivity|].
  rewrite indexedFrom_cons. simpl. now rewrite IH.
Qed.

Lemma getMatchedSegments_loop_spec (matchMap : nat -> bool)
    (chars : list ascii) (k : nat) (st : SegmentsState) :
  segmentsInvariant st ->
  segmentsInvariant
    (fold_left (getMatchedSegments_step matchMap) (indexedFrom k chars) st) /\
  expandSegments
    (combined (closeOff (fold_left (getMatchedSegments_step matchMap)
                                   (indexedFrom k chars) st))) =
  expandSegments (combined (closeOff st)) ++
  map (fun ci => (fst ci, matchMap (snd ci))) (indexedFrom k chars).
Proof.
  revert k st. induction chars as [|c chars IH]; intros k st Hinv.
  - simpl. now rewrite app_nil_r.
  - rewrite indexedFrom_cons. cbn [fold_left map fst snd].
    destruct (getMatchedSegments_step_spec matchMap st c k Hinv)
      as [Hinv' Hexp].
    destruct (IH (S k) _ Hinv') as [Hinv'' Hexp'].
    split; [exact Hinv''|].
    rewrite Hexp', Hexp, <- app_assoc. reflexivity.
Qed.

Lemma segmentsInvariant_init :
  segmentsInvariant {| currentUnmatchedCharacters := [];
                       currentMatchedCharacters := [];
                       combined := [] |}.
Proof.
  unfold segmentsInvariant. cbn. repeat split; auto.
Qed.

Lemma list_ascii_of_string_app (s1 s2 : string) :
  list_ascii_of_string (s1 ++ s2) =
  list_ascii_of_string s1 ++ list_ascii_of_string s2.
Proof.
  induction s1 as [|a s1 IH]; simpl; [reflexivity|]. now rewrite IH.
Qed.

Lemma concat_expandSegments (segments : list MatchedSegment) :
  list_ascii_of_string (String.concat "" (map str segments)) =
  map fst (expandSegments segments).
Proof.
  unfold expandSegments.
  induction segments as [|seg segments IH]; [reflexivity|].
  cbn [map flat_map]. rewrite map_app, map_map. cbn [fst].
  rewrite map_id, <- IH.
  destruct segments as [|seg' segments].
  - simpl. now rewrite app_nil_r.
  - cbn [map String.concat].
    rewrite list_ascii_of_string_app. reflexivity.
Qed.

(** X13. The segments spell the string: read one after the other, their
    characters are the characters of [result] in order, each in a segment
    whose [matched] is the entry of the match map at its index; so the
    strings of the segments concatenate to [result]. *)
Theorem getMatchedSegments_characters (matchMap : nat -> bool)
    (result : string) :
  expandSegments (getMatchedSegments matchMap result) =
    map (fun ci => (fst ci, matchMap (snd ci)))
        (indexedFrom 0 (list_ascii_of_string result)) /\
  String.concat "" (map str (getMatchedSegments matchMap result)) = result.
Proof.
  assert (H : expandSegments (getMatchedSegments matchMap result) =
              map (fun ci => (fst ci, matchMap (snd ci)))
                  (indexedFrom 0 (list_ascii_of_string result))).
  { unfold getMatchedSegments.
    destruct (getMatchedSegments_loop_spec
                matchMap (list_ascii_of_string result) 0 _
                segmentsInvariant_init) as [_ Hexp].
    exact Hexp. }
  split; [exact H|].
  rewrite <- (string_of_list_ascii_of_string
                (String.concat "" (map str (getMatchedSegments matchMap
                                                               result)))).
  rewrite concat_expandSegments, H, map_map. cbn [fst].
  rewrite map_fst_indexedFrom. apply string_of_list_ascii_of_string.
Qed.

Lemma alternatingFlags_nth (flags : list bool) (i : nat) (a b : bool) :
  alternatingFlags flags ->
  nth_error flags i = Some a -> nth_error flags (S i) = Some b -> a <> b.
Proof.
  revert i. induction flags as [|x flags IH]; intros i Halt Ha Hb.
  - destruct i; discriminate.
  - destruct flags as [|y flags]; [destruct i; discriminate|].
    destruct Halt as [Hxy Halt].
    destruct i as [|i].
    + simpl in Ha, Hb. congruence.
    + apply (IH i Halt); assumption.
Qed.

(** X14. The segments are the runs of the string: no segment is empty, and
    two neighbouring segments never have the same [matched], so a run of
    matched (or unmatched) characters is never split in two. *)
Theorem getMatchedSegments_runs (matchMap : nat -> bool) (result : string) :
  (forall seg, In seg (getMatchedSegments matchMap result) ->
               str seg <> "") /\
  alternating (getMatchedSegments matchMap result) /\
  (forall i a b,
     nth_error (getMatchedSegments matchMap result) i = Some a ->
     nth_error (getMatchedSegments matchMap result) (S i) = Some b ->
     matched a <> matched b).
Proof.
  unfold getMatchedSegments.
  destruct (getMatchedSegments_loop_spec
              matchMap (list_ascii_of_string result) 0 _
              segmentsInvariant_init) as [[_ [_ [Hne Halt]]] _].
  split; [exact Hne|]. split; [exact Halt|].
  intros i a b Ha Hb.
  apply (alternatingFlags_nth _ i _ _ Halt).
  - rewrite nth_error_map. unfold closeOff. now rewrite Ha.
  - rewrite nth_error_map. unfold closeOff. now rewrite Hb.
Qed.

(** * Users of the cache *)

Section ProjectServiceFacts.
Import ProjectService.

(** X15. [positionErrors] throws for a file outside the current project
    (or without a current project): its own [return []] for such a file
    is never reached, because [getProject] has thrown before. When it
    returns, it returns errors that the cache holds for that file, in the
    cache's order. *)
Theorem positionErrors_outside_project (currentProject : option Project)
    (errorsCache : ErrorsCache) (filePath : string) (position : Z) :
  (ifCurrent currentProject filePath = None ->
   positionErrors currentProject errorsCache filePath position =
   inl CALLED_WHEN_NO_ACTIVE_PROJECT_FOR_FILE_PATH) /\
  (forall project,
     ifCurrent currentProject filePath = Some project ->
     currentProject = Some project /\
     includesSourceFile project filePath = true /\
     positionErrors currentProject errorsCache filePath position =
     inr (filter (atPosition
                    (getLineAndCharacterOfPosition project filePath position))
                 (getErrorsForFilePath filePath errorsCache))) /\
  (forall errors e,
     positionErrors currentProject errorsCache filePath position =
       inr errors ->
     In e errors -> In e (getErrorsForFilePath filePath errorsCache)).
Proof.
  unfold positionErrors, ifCurrentOrErrorOut, ifCurrent.
  destruct currentProject as [project|];
    [destruct (includesSourceFile project filePath) eqn:E|].
  - split; [discriminate|]. split.
    + intros p [= <-]. rewrite E. auto.
    + rewrite E. cbn [negb]. intros errors e [= <-] Hin.
      now apply filter_In in Hin.
  - split; [reflexivity|]. split; [discriminate|]. discriminate.
  - split; [reflexivity|]. split; [discriminate|]. discriminate.
Qed.

(** X16. Which errors [positionErrors] reports at an editor position: an
    error on a single line when the position is on that line and its
    column is between the two ends, both included; an error over several
    lines only when the position is on a line strictly between its first
    and its last, so not on its first or last line whatever the column;
    an error that ends before it starts never. *)
Theorem atPosition_cases (editorPos : EditorPosition) (e : CodeError) :
  ((line (from e) = line (to e))%Z ->
   (atPosition editorPos e = true <->
    line editorPos = line (from e) /\
    (ch (from e) <= ch editorPos <= ch (to e))%Z)) /\
  ((line (from e) < line (to e))%Z ->
   (atPosition editorPos e = true <->
    (line (from e) < line editorPos < line (to e))%Z)) /\
  ((line (from e) > line (to e))%Z -> atPosition editorPos e = false).
Proof.
  unfold atPosition.
  destruct (Z.ltb_spec (line (from e)) (line editorPos));
    destruct (Z.gtb_spec (line (to e)) (line editorPos));
    destruct (Z.eqb_spec (line (from e)) (line (to e)));
    destruct (Z.eqb_spec (line (from e)) (line editorPos));
    destruct (Z.leb_spec (ch (from e)) (ch editorPos));
    destruct (Z.geb_spec (ch (to e)) (ch editorPos));
    cbn [andb orb]; repeat split; intros; try discriminate; try lia.
Qed.

Lemma atPosition_cases_witness :
  let multi := mkError "a.ts" 3 0 "m" {| line := 5; ch := 4 |} "" in
  let single := mkError "a.ts" 3 2 "s" {| line := 3; ch := 6 |} "" in
  (atPosition {| line := 4; ch := 9 |} multi = true /\
   atPosition {| line := 3; ch := 1 |} multi = false /\
   atPosition {| line := 5; ch := 1 |} multi = false) /\
  (atPosition {| line := 3; ch := 6 |} single = true <->
   line {| line := 3; ch := 6 |} = line (from single) /\
   (ch (from single) <= ch {| line := 3; ch := 6 |} <= ch (to single))%Z).
Proof.
  cbv zeta. split; [repeat split|].
  apply (atPosition_cases {| line := 3; ch := 6 |}
                          (mkError "a.ts" 3 2 "s" {| line := 3; ch := 6 |} "")).
  reflexivity.
Defined.

End ProjectServiceFacts.

Section RenameAndOutputFacts.
Import ProjectService.

Lemma getRenameInfo_locations_snoc (found : list RenameLocation)
    (loc : RenameLocation) :
  getRenameInfo_locations (found ++ [loc]) =
  set (getRenameInfo_locations found) (fileName loc)
      (textSpan loc ::
       match get (getRenameInfo_locations found) (fileName loc) with
       | Some spans => spans
       | None => []
       end).
Proof.
  unfold getRenameInfo_locations. rewrite fold_left_app. cbn [fold_left].
  set (locations := fold_left _ found empty).
  unfold has. destruct (get locations (fileName loc)) as [spans|] eqn:G.
  - now rewrite G.
  - now rewrite get_set_eq, set_set.
Qed.

Lemma getRenameInfo_locations_get (found : list RenameLocation)
    (f : string) :
  get (getRenameInfo_locations found) f =
  match filter (fun loc => String.eqb (fileName loc) f) found with
  | [] => None
  | l => Some (rev (map textSpan l))
  end.
Proof.
  induction found as [|loc found IH] using rev_ind; [reflexivity|].
  rewrite getRenameInfo_locations_snoc, filter_app. cbn [filter].
  destruct (String.eqb_spec (fileName loc) f) as [<-|Hne].
  - rewrite get_set_eq, IH.
    destruct (filter _ found) as [|x l].
    + reflexivity.
    + cbn [app]. rewrite app_comm_cons, map_app, rev_app_distr.
      reflexivity.
  - rewrite get_set_ne, IH, app_nil_r by assumption. reflexivity.
Qed.

Lemma StronglySorted_snoc {A : Type} (R : A -> A -> Prop) (l : list A)
    (x : A) :
  StronglySorted R l -> Forall (fun y => R y x) l ->
  StronglySorted R (l ++ [x]).
Proof.
  induction 1 as [|a l Hl IH Ha]; intros Hx; simpl.
  - repeat constructor.
  - inversion Hx as [|? ? Hax Hlx]; subst.
    constructor; [now apply IH|].
    apply Forall_app. split; [exact Ha|]. now constructor.
Qed.

Lemma StronglySorted_rev {A : Type} (R : A -> A -> Prop) (l : list A) :
  StronglySorted R l -> StronglySorted (fun a b => R b a) (rev l).
Proof.
  induction 1 as [|a l Hl IH Ha]; simpl; [constructor|].
  apply StronglySorted_snoc; [exact IH|].
  now apply Forall_rev.
Qed.

(** X17. The rename locations are filed by file name, and the list of a
    file holds its spans in the reverse of the order in which they were
    found; a file without location is no property of the result. "Using
    unshift makes them with maximum value on top": when the spans of a
    file are found by ascending start, its list is by descending start. *)
Theorem getRenameInfo_locations_order (found : list RenameLocation)
    (f : string) :
  let spansOf :=
    map textSpan (filter (fun loc => String.eqb (fileName loc) f) found) in
  let filed :=
    match get (getRenameInfo_locations found) f with
    | Some spans => spans
    | None => []
    end in
  filed = rev spansOf /\
  (get (getRenameInfo_locations found) f = None <->
   forall loc, In loc found -> fileName loc <> f) /\
  (StronglySorted (fun a b => (start a <= start b)%Z) spansOf ->
   StronglySorted (fun a b => (start b <= start a)%Z) filed).
Proof.
  cbv zeta. rewrite getRenameInfo_locations_get.
  assert (Hfiled :
            match
              match filter (fun loc => String.eqb (fileName loc) f) found with
              | [] => None
              | l => Some (rev (map textSpan l))
              end
            with Some spans => spans | None => [] end =
            rev (map textSpan
                     (filter (fun loc => String.eqb (fileName loc) f) found))).
  { now destruct (filter _ found). }
  rewrite Hfiled. split; [reflexivity|]. split.
  - split.
    + intros H loc Hin Hf.
      assert (Hl : In loc (filter (fun loc => String.eqb (fileName loc) f)
                                  found))
        by (apply filter_In; split; auto; now apply String.eqb_eq).
      destruct (filter _ found); [destruct Hl|discriminate].
    + intros H.
      destruct (filter _ found) as [|x l] eqn:E; [reflexivity|].
      assert (Hx : In x (filter (fun loc => String.eqb (fileName loc) f)
                                found))
        by (rewrite E; now left).
      apply filter_In in Hx as [Hx Hf]. apply String.eqb_eq in Hf.
      elim (H x Hx Hf).
  - apply StronglySorted_rev.
Qed.

Lemma getRenameInfo_locations_order_witness :
  let span (s : Z) := {| start := s; length := 3 |} in
  let found :=
    [ {| fileName := "a.ts"; textSpan := span 4%Z |};
      {| fileName := "b.ts"; textSpan := span 1%Z |};
      {| fileName := "a.ts"; textSpan := span 20%Z |} ] in
  getRenameInfo_locations found =
    [("a.ts", [span 20%Z; span 4%Z]); ("b.ts", [span 1%Z])] /\
  StronglySorted (fun a b => (start b <= start a)%Z)
    match get (getRenameInfo_locations found) "a.ts" with
    | Some spans => spans
    | None => []
    end.
Proof.
  cbv zeta. split; [reflexivity|].
  apply (getRenameInfo_locations_order
           [ {| fileName := "a.ts";
                textSpan := {| start := 4; length := 3 |} |};
             {| fileName := "b.ts";
                textSpan := {| start := 1; length := 3 |} |};
             {| fileName := "a.ts";
                textSpan := {| start := 20; length := 3 |} |} ] "a.ts").
  simpl. repeat constructor. simpl. lia.
Defined.

Lemma hd_error_filter {A : Type} (P : A -> bool) (l : list A) (x : A) :
  hd_error (filter P l) = Some x -> In x l /\ P x = true.
Proof.
  intros H. apply filter_In.
  destruct (filter P l) as [|y l']; [discriminate|].
  injection H as ->. now left.
Qed.

Lemma getContents_setContents (disk : Disk) (filePath contents : string) :
  getContents (setContents disk filePath contents) filePath = contents.
Proof.
  unfold getContents, setContents. now rewrite String.eqb_refl.
Qed.

(** X18. [getJSOutputStatus] answers [inActiveProject: false] and leaves
    the disk alone for a file outside the current project. Otherwise:
    with [autoEmit] the state is never [JSOutOfDate]; a state
    [JSUpToDate] means that the file named [outputFilePath], the first
    output whose name ends in ".js", reads as the emitted text on the
    disk the call leaves; no other file is written, and nothing is
    written without [autoEmit], when the emit was skipped or when
    [compileOnSave] is false. *)
Theorem getJSOutputStatus_autoEmit (currentProject : option Project)
    (filePath : string) (autoEmit : bool) (disk : Disk) :
  let response :=
    fst (getJSOutputStatus currentProject filePath autoEmit disk) in
  let disk' :=
    snd (getJSOutputStatus currentProject filePath autoEmit disk) in
  (response = None <-> ifCurrent currentProject filePath = None) /\
  (response = None -> forall p, disk' p = disk p) /\
  (forall project status,
     ifCurrent currentProject filePath = Some project ->
     response = Some status ->
     inputFilePath status = filePath /\
     (emitSkipped (getRawOutput project filePath) = true ->
      state status = EmitSkipped) /\
     (autoEmit = true -> state status <> JSOutOfDate) /\
     (state status = JSUpToDate ->
      exists js,
        hd_error (filter (fun x => endsWith (name x) ".js")
                         (outputFiles (getRawOutput project filePath)))
          = Some js /\
        outputFilePath status = Some (name js) /\
        getContents disk' (name js) = text js) /\
     (forall p, outputFilePath status <> Some p -> disk' p = disk p) /\
     (autoEmit = false \/ state status <> JSUpToDate \/
      emitSkipped (getRawOutput project filePath) = true \/
      compileOnSave project = Some false ->
      forall p, disk' p = disk p)).
Proof.
  cbv zeta. unfold getJSOutputStatus.
  destruct (ifCurrent currentProject filePath) as [project|];
    [|cbn [fst snd]; repeat split; auto; discriminate].
  cbv zeta.
  set (output := getRawOutput project filePath).
  destruct (hd_error (filter (fun x => endsWith (name x) ".js")
                             (outputFiles output))) as [js|] eqn:Hjs.
  - destruct (emitSkipped output) eqn:Hskip;
      destruct (compileOnSave project) as [[|]|] eqn:Hcos;
      destruct (String.eqb (getContents disk (name js)) (text js)) eqn:Heq;
      destruct autoEmit;
      cbn [isFalse orb andb negb JSOutputState_eqb fst snd option_map];
      (split; [split; discriminate|]);
      (split; [discriminate|]);
      intros p status [= <-] [= <-];
      cbn [inputFilePath state outputFilePath];
      repeat split; intros; try discriminate; try congruence; auto;
      subst output;
      try (exists js; repeat split; auto;
           first [ apply getContents_setContents
                 | now apply String.eqb_eq ]);
      repeat match goal with
             | H : _ \/ _ |- _ => destruct H
             end;
      try discriminate; try congruence;
      match goal with
      | |- setContents _ _ _ ?q = _ =>
          unfold setContents;
          destruct (String.eqb_spec q (name js)); congruence
      end.
  - destruct (emitSkipped output) eqn:Hskip;
      destruct (compileOnSave project) as [[|]|] eqn:Hcos;
      destruct autoEmit;
      cbn [isFalse orb andb negb JSOutputState_eqb fst snd option_map];
      (split; [split; discriminate|]);
      (split; [discriminate|]);
      intros p status [= <-] [= <-];
      cbn [inputFilePath state outputFilePath];
      repeat split; intros; subst output;
      try discriminate; try congruence; auto.
Qed.

End RenameAndOutputFacts.

Section ProjectServiceWitnesses.
Import ProjectService.

Lemma positionErrors_outside_project_witness :
  positionErrors (Some oneFileProject) scenarioCache "b.ts" 2 =
    inl CALLED_WHEN_NO_ACTIVE_PROJECT_FOR_FILE_PATH /\
  positionErrors (Some oneFileProject) scenarioCache "a.ts" 2 = inr [e1].
Proof.
  split.
  - apply (positionErrors_outside_project
             (Some oneFileProject) scenarioCache "b.ts" 2).
    reflexivity.
  - exact (proj2 (proj2 (proj1 (proj2 (positionErrors_outside_project
                                         (Some oneFileProject) scenarioCache
                                         "a.ts" 2))
                               oneFileProject eq_refl))).
Defined.

Lemma getJSOutputStatus_autoEmit_witness :
  let r := getJSOutputStatus (Some oneFileProject) "a.ts" true
                             (fun _ => None) in
  fst r = Some {| inputFilePath := "a.ts"; state := JSUpToDate;
                  outputFilePath := Some "a.js" |} /\
  snd r "a.js" = Some "var a;" /\
  snd r "a.js.map" = None /\
  state {| inputFilePath := "a.ts"; state := JSUpToDate;
           outputFilePath := Some "a.js" |} <> JSOutOfDate.
Proof.
  cbv zeta. split; [reflexivity|]. split; [reflexivity|].
  split; [reflexivity|].
  exact (proj1 (proj2 (proj2 (proj2 (proj2 (getJSOutputStatus_autoEmit
                                              (Some oneFileProject) "a.ts"
                                              true (fun _ => None)))
                                    oneFileProject _ eq_refl eq_refl)))
               eq_refl).
Defined.

End ProjectServiceWitnesses.
